(** * Flow control and acknowledgment grouping of the Pulsar Go client

    A shallow embedding of

    - [pulsar/internal/memory_limit_controller.go]: the memory limit
      controller, an admission gate over one shared 64-bit counter;
    - the ack grouping tracker of package [pulsar]: the [cachedAcks] state
      and the loop of [newAckGroupingTracker] that owns it.

    Go's [int64] is a [Z] with the wrap-around of two's complement written
    out; a Go map is a [gmap]; a slice of fixed length is a list updated by
    index, with the bounds check of the runtime made explicit.  The
    blocking [ReserveMemory] and the floating-point [CurrentUsagePercent]
    are left out. *)

From Stdlib Require Import ZArith Lia List Bool FinFun.
From stdpp Require Import base option list gmap.

Local Open Scope Z_scope.

(** ** Machine integers *)

Module Int64.

Definition modulus : Z := 2 ^ 64.
Definition min_int : Z := - 2 ^ 63.
Definition max_int : Z := 2 ^ 63 - 1.

(** The values an [int64] variable can hold. *)
Definition in_range (z : Z) : Prop := min_int <= z <= max_int.

(** The result Go stores for an [int64] expression whose exact value is
    [z]: overflow does not panic, it wraps. *)
Definition wrap (z : Z) : Z := (z + 2 ^ 63) mod modulus - 2 ^ 63.

Definition add (a b : Z) : Z := wrap (a + b).
Definition neg (a : Z) : Z := wrap (- a).

End Int64.

(** ** The memory limit controller *)

Module MemoryLimit.

(** [memoryLimitController].  The condition variable [chCond] is observed
    through the number of [broadcast] calls made on it. *)
Record memoryLimitController : Type := {
  limit : Z;
  chCond : nat;
  currentUsage : Z;
}.

Definition NewMemoryLimitController (lim : Z) : memoryLimitController :=
  {| limit := lim; chCond := 0%nat; currentUsage := 0 |}.

(** *** [sync/atomic] on [currentUsage] *)

Definition store (m : memoryLimitController) (v : Z) : memoryLimitController :=
  {| limit := limit m; chCond := chCond m; currentUsage := v |}.

Definition LoadInt64 (m : memoryLimitController) : Z := currentUsage m.

Definition AddInt64 (m : memoryLimitController) (delta : Z)
  : memoryLimitController * Z :=
  let v := Int64.add (currentUsage m) delta in (store m v, v).

Definition CompareAndSwapInt64 (m : memoryLimitController) (old new : Z)
  : memoryLimitController * bool :=
  if currentUsage m =? old then (store m new, true) else (m, false).

Definition broadcast (m : memoryLimitController) : memoryLimitController :=
  {| limit := limit m; chCond := S (chCond m); currentUsage := currentUsage m |}.

(** *** The operations *)

Definition IsMemoryLimited (m : memoryLimitController) : bool := 0 <? limit m.

Definition CurrentUsage (m : memoryLimitController) : Z := LoadInt64 m.

(** [TryReserveMemory] run against other goroutines.  [env] lists, for each
    turn of the loop, the value the other goroutines left in [currentUsage]
    between this goroutine's load and its compare-and-swap; when [env] is
    used up nobody interferes any more. *)
Fixpoint TryReserveMemory_under (env : list Z) (m : memoryLimitController)
    (size : Z) : memoryLimitController * bool :=
  let current := LoadInt64 m in
  let newUsage := Int64.add current size in
  if IsMemoryLimited m && (limit m <? current) then (m, false)
  else
    match env with
    | [] => CompareAndSwapInt64 m current newUsage (* nobody wrote: it swaps *)
    | v :: env' =>
        let '(m', swapped) := CompareAndSwapInt64 (store m v) current newUsage in
        if swapped then (m', true) else TryReserveMemory_under env' m' size
    end.

(** [TryReserveMemory] of a goroutine that runs alone. *)
Definition TryReserveMemory (m : memoryLimitController) (size : Z)
  : memoryLimitController * bool :=
  TryReserveMemory_under [] m size.

Definition ForceReserveMemory (m : memoryLimitController) (size : Z)
  : memoryLimitController :=
  fst (AddInt64 m size).

Definition ReleaseMemory (m : memoryLimitController) (size : Z)
  : memoryLimitController :=
  let '(m', newUsage) := AddInt64 m (Int64.neg size) in
  if (limit m' <? Int64.add newUsage size) && (newUsage <=? limit m')
  then broadcast m' else m'.

(** *** Call sequences *)

Inductive call : Type :=
| CallTryReserve (size : Z)
| CallRelease (size : Z).

(** One call; the second component is the size of the reservation when the
    call is a [TryReserveMemory] that returned true. *)
Definition exec (m : memoryLimitController) (c : call)
  : memoryLimitController * option Z :=
  match c with
  | CallTryReserve size =>
      let '(m', ok) := TryReserveMemory m size in
      (m', if ok then Some size else None)
  | CallRelease size => (ReleaseMemory m size, None)
  end.

(** A whole sequence, with the sizes of the reservations that succeeded. *)
Fixpoint run (m : memoryLimitController) (cs : list call)
  : memoryLimitController * list Z :=
  match cs with
  | [] => (m, [])
  | c :: cs' =>
      let '(m1, r) := exec m c in
      let '(m2, rs) := run m1 cs' in
      (m2, match r with Some s => s :: rs | None => rs end)
  end.

(** The call does not take the counter below the least [int64] (a
    reservation that is refused changes nothing), and it releases nothing
    negative. *)
Definition call_ok (m : memoryLimitController) (c : call) : bool :=
  match c with
  | CallTryReserve size =>
      (IsMemoryLimited m && (limit m <? currentUsage m))
      || (Int64.min_int <=? currentUsage m + size)
  | CallRelease size => (0 <=? size) && (Int64.min_int <=? currentUsage m - size)
  end.

Fixpoint calls_ok (m : memoryLimitController) (cs : list call) : bool :=
  match cs with
  | [] => true
  | c :: cs' => call_ok m c && calls_ok (fst (exec m c)) cs'
  end.

(** The usage is within the limit, or above it by at most one of the
    reservations [sizes]. *)
Definition within_grace (m : memoryLimitController) (sizes : list Z) : Prop :=
  currentUsage m <= limit m \/
  exists s, In s sizes /\ currentUsage m <= limit m + s.

End MemoryLimit.

(** ** The bit set of [github.com/bits-and-blooms/bitset]

    A [*bitset.BitSet] of length [n] is the list of its [n] bits, bit 0
    first.  Only what the tracker calls is modelled. *)

Module BitSet.

Abbreviation BitSet := (list bool).

(** [uint(x)] for a signed [x] on a 64-bit platform. *)
Definition uint (x : Z) : Z := x mod 2 ^ 64.

(** [bitset.New(length)]: [length] bits, all zero. *)
Definition New (length : Z) : BitSet := replicate (Z.to_nat length) false.

(** [b.Set(i)]: the set grows when [i] is beyond its length. *)
Definition Set_ (b : BitSet) (i : Z) : BitSet :=
  let n := Z.to_nat i in
  if (n <? length b)%nat then <[n := true]> b
  else b ++ replicate (n - length b)%nat false ++ [true].

(** [b.Clear(i)]: nothing happens when [i] is beyond the length. *)
Definition Clear (b : BitSet) (i : Z) : BitSet :=
  let n := Z.to_nat i in
  if (n <? length b)%nat then <[n := false]> b else b.

(** [b.Test(i)]: false when [i] is beyond the length. *)
Definition Test (b : BitSet) (i : Z) : bool :=
  match b !! Z.to_nat i with
  | Some bit => bit
  | None => false
  end.

(** [b.None()]: no bit is set. *)
Definition None_ (b : BitSet) : bool := forallb negb b.

End BitSet.

(** ** Message ids *)

(** Modelled from the spec: the [MessageID] interface is declared outside
    the file of the tracker.  A message id is a position (ledger and entry)
    with batch coordinates; the fields are the getters the tracker calls. *)
Record MessageID : Type := newMessageID {
  LedgerID : Z;
  EntryID : Z;
  BatchIdx : Z;
  BatchSize : Z;
}.

#[global] Instance MessageID_eq_dec : EqDecision MessageID.
Proof. solve_decision. Defined.

(** The helpers of package [pulsar] that the tracker calls and that are
    defined outside its file.  The tracker is verified against any
    implementation of them. *)
Class MessageIDFuncs : Type := {
  messageIDHash : MessageID -> Z;
  messageIDCompare : MessageID -> MessageID -> Z;
  messageIDIsBatch : MessageID -> bool;
  EarliestMessageID : MessageID;
}.

(** ** Outcomes of code that can panic or block *)

Inductive result (A : Type) : Type :=
| Ok (a : A)
| Panic      (* a run-time panic: index out of range, nil dereference *)
| Stuck.     (* the request is never served: the loop has returned, or the
                ticker it waits for was never started *)

Arguments Ok {A} a.
Arguments Panic {A}.
Arguments Stuck {A}.

#[global] Instance result_ret : MRet result := fun A a => Ok a.

#[global] Instance result_bind : MBind result := fun A B k r =>
  match r with
  | Ok a => k a
  | Panic => Panic
  | Stuck => Stuck
  end.

(** ** The ack grouping tracker *)

Module Tracker.

(** [AckGroupingOptions]; [MaxTime] is a [time.Duration], in nanoseconds. *)
Record AckGroupingOptions : Type := {
  MaxSize : Z;
  MaxTime : Z;
}.

Inductive ackFlushType : Type := flushOnly | flushAndClean | flushAndClose.

#[global] Instance ackFlushType_eq_dec : EqDecision ackFlushType.
Proof. solve_decision. Defined.

(** A call of one of the two callbacks given to [newAckGroupingTracker]. *)
Inductive ackCall : Type :=
| IndividualAck (id : MessageID)
| CumulativeAck (id : MessageID).

#[global] Instance ackCall_eq_dec : EqDecision ackCall.
Proof. solve_decision. Defined.

(** [cachedAcks].  A nil [MessageID] in [singleAcks] is [None]; in
    [pendingAcks] a key bound to a nil pointer is bound to [None].  The
    callbacks [ackIndividual] and [ackCumulative] are observed through
    [acked], the calls made to them so far, oldest first. *)
Record cachedAcks : Type := {
  singleAcks : list (option MessageID);
  index : nat;
  pendingAcks : gmap Z (option BitSet.BitSet);
  lastCumulativeAck : MessageID;
  cumulativeAckRequired : bool;
  acked : list ackCall;
}.

Definition ackIndividual (id : MessageID) (log : list ackCall) : list ackCall :=
  log ++ [IndividualAck id].

Definition ackCumulative (id : MessageID) (log : list ackCall) : list ackCall :=
  log ++ [CumulativeAck id].

(** [ackList]: [for _, id := range ids { ackIndividual(id) }]. *)
Definition ackList (ids : list MessageID) (log : list ackCall) : list ackCall :=
  foldl (fun log id => ackIndividual id log) log ids.

(** The ids of a slice, when none of them is nil. *)
Fixpoint non_nil (s : list (option MessageID)) : option (list MessageID) :=
  match s with
  | [] => Some []
  | None :: _ => None
  | Some id :: s' =>
      match non_nil s' with
      | Some ids => Some (id :: ids)
      | None => None
      end
  end.

(** The bit set of a batch seen for the first time:
    [bitset.New(uint(n))] followed by [Set(uint(i))] for [0 <= i < n]. *)
Definition newAckSet (batchSize : Z) : BitSet.BitSet :=
  foldl (fun ackSet i => BitSet.Set_ ackSet (BitSet.uint i))
        (BitSet.New (BitSet.uint batchSize)) (seqZ 0 batchSize).

Section WithMessageIDFuncs.

Context `{MessageIDFuncs}.

(** The part of [addAndCheckIfFull] that updates [pendingAcks]: the entry
    of the position of [id] is created when it is not found, and the bit
    of [id] is cleared in it when it is a bit set. *)
Definition markAcked (pending : gmap Z (option BitSet.BitSet)) (id : MessageID)
  : gmap Z (option BitSet.BitSet) :=
  let key := messageIDHash id in
  let '(ackSet, pending1) :=
    match pending !! key with
    | Some ackSet => (ackSet, pending)
    | None =>
        if messageIDIsBatch id then
          let ackSet := newAckSet (BatchSize id) in
          (Some ackSet, <[key := Some ackSet]> pending)
        else (None, <[key := None]> pending)
    end in
  match ackSet with
  | Some b => <[key := Some (BitSet.Clear b (BitSet.uint (BatchIdx id)))]> pending1
  | None => pending1
  end.

Definition addAndCheckIfFull (t : cachedAcks) (id : MessageID)
  : result (cachedAcks * bool) :=
  if (index t <? length (singleAcks t))%nat then
    let singleAcks' := <[index t := Some id]> (singleAcks t) in
    let index' := S (index t) in
    Ok ({| singleAcks := singleAcks';
           index := index';
           pendingAcks := markAcked (pendingAcks t) id;
           lastCumulativeAck := lastCumulativeAck t;
           cumulativeAckRequired := cumulativeAckRequired t;
           acked := acked t |},
        (index' =? length singleAcks')%nat)
  else Panic.

Definition tryUpdateLastCumulativeAck (t : cachedAcks) (id : MessageID)
  : cachedAcks :=
  if messageIDCompare (lastCumulativeAck t) id <? 0 then
    {| singleAcks := singleAcks t;
       index := index t;
       pendingAcks := pendingAcks t;
       lastCumulativeAck := id;
       cumulativeAckRequired := true;
       acked := acked t |}
  else t.

Definition isDuplicate (t : cachedAcks) (id : MessageID) : bool :=
  if 0 <=? messageIDCompare (lastCumulativeAck t) id then true
  else
    match pendingAcks t !! messageIDHash id with
    | None => false
    | Some ackSet =>
        match ackSet with
        | None => true
        | Some b =>
            if negb (messageIDIsBatch id) then true
            else negb (BitSet.Test b (BitSet.uint (BatchIdx id)))
        end
    end.

(** One turn of the loop of [flushIndividualAcks] over the flushed ids. *)
Definition flushEntry (pending : gmap Z (option BitSet.BitSet)) (id : MessageID)
  : gmap Z (option BitSet.BitSet) :=
  let key := messageIDHash id in
  match pending !! key with
  | None => pending
  | Some ackSet =>
      let pending' :=
        match ackSet with
        | None => delete key pending
        | Some b =>
            let b' := BitSet.Clear b (BitSet.uint (BatchIdx id)) in
            let pending1 := <[key := Some b']> pending in
            if BitSet.None_ b' then delete key pending1 else pending1
        end in
      delete (messageIDHash id) pending'
  end.

Definition flushIndividualAcks (t : cachedAcks) : result cachedAcks :=
  if (0 <? index t)%nat then
    if (index t <=? length (singleAcks t))%nat then
      match non_nil (take (index t) (singleAcks t)) with
      | Some ids =>
          Ok {| singleAcks := singleAcks t;
                index := 0;
                pendingAcks := foldl flushEntry (pendingAcks t) ids;
                lastCumulativeAck := lastCumulativeAck t;
                cumulativeAckRequired := cumulativeAckRequired t;
                acked := ackList ids (acked t) |}
      | None => Panic
      end
    else Panic
  else Ok t.

Definition flushCumulativeAck (t : cachedAcks) : cachedAcks :=
  if cumulativeAckRequired t then
    {| singleAcks := singleAcks t;
       index := index t;
       pendingAcks := pendingAcks t;
       lastCumulativeAck := lastCumulativeAck t;
       cumulativeAckRequired := false;
       acked := ackCumulative (lastCumulativeAck t) (acked t) |}
  else t.

Definition flush (t : cachedAcks) : result cachedAcks :=
  t' ← flushIndividualAcks t;
  Ok (flushCumulativeAck t').

Definition clean (t : cachedAcks) : cachedAcks :=
  let maxSize := length (singleAcks t) in
  {| singleAcks := replicate maxSize None;
     index := 0;
     pendingAcks := ∅;
     lastCumulativeAck := EarliestMessageID;
     cumulativeAckRequired := false;
     acked := acked t |}.

(** *** The tracker and its loop *)

(** The two implementations of [ackGroupingTracker].  The timed one is the
    state owned by the goroutine started in [newAckGroupingTracker];
    [running] is false once that goroutine has returned. *)
Inductive ackGroupingTracker : Type :=
| immediateAckGroupingTracker (log : list ackCall)
| timedAckGroupingTracker (options : AckGroupingOptions) (c : cachedAcks)
    (running : bool).

Definition defaultOptions : AckGroupingOptions :=
  {| MaxSize := 1000; MaxTime := 100 * 1000000 |}.

Definition newCachedAcks (options : AckGroupingOptions) : cachedAcks :=
  {| singleAcks := replicate (Z.to_nat (MaxSize options)) None;
     index := 0;
     pendingAcks := ∅;
     lastCumulativeAck := EarliestMessageID;
     cumulativeAckRequired := false;
     acked := [] |}.

Definition newAckGroupingTracker (options : option AckGroupingOptions)
  : ackGroupingTracker :=
  let options := default defaultOptions options in
  if MaxSize options <=? 1 then immediateAckGroupingTracker []
  else timedAckGroupingTracker options (newCachedAcks options) true.

(** What the tracker is asked to do: a call of the method of that name, or
    a tick of the ticker ([<-timeout.C]). *)
Inductive request : Type :=
| Add (id : MessageID)
| AddCumulative (id : MessageID)
| IsDuplicate (id : MessageID)
| Flush
| FlushAndClean
| Close
| Tick.

#[global] Instance request_eq_dec : EqDecision request.
Proof. solve_decision. Defined.

(** [case ackFlushType := <-t.flushCh] *)
Definition serveFlush (options : AckGroupingOptions) (c : cachedAcks)
    (ft : ackFlushType) : result (ackGroupingTracker * option bool) :=
  c1 ← flush c;
  let c2 := if decide (ft = flushAndClean) then clean c1 else c1 in
  Ok (timedAckGroupingTracker options c2
        (if decide (ft = flushAndClose) then false else true), None).

(** One request served; the boolean is the answer of [isDuplicate]. *)
Definition serve (t : ackGroupingTracker) (r : request)
  : result (ackGroupingTracker * option bool) :=
  match t with
  | immediateAckGroupingTracker log =>
      match r with
      | Add id => Ok (immediateAckGroupingTracker (ackIndividual id log), None)
      | AddCumulative id =>
          Ok (immediateAckGroupingTracker (ackCumulative id log), None)
      | IsDuplicate _ => Ok (t, Some false)
      | Flush | FlushAndClean | Close => Ok (t, None)
      | Tick => Stuck
      end
  | timedAckGroupingTracker options c running =>
      if running then
        match r with
        | Add id =>
            '(c1, full) ← addAndCheckIfFull c id;
            if (full : bool) then
              c2 ← flushIndividualAcks c1;
              Ok (timedAckGroupingTracker options c2 true, None)
            else Ok (timedAckGroupingTracker options c1 true, None)
        | AddCumulative id =>
            let c1 := tryUpdateLastCumulativeAck c id in
            let c2 := if MaxTime options <=? 0 then flushCumulativeAck c1 else c1 in
            Ok (timedAckGroupingTracker options c2 true, None)
        | IsDuplicate id => Ok (t, Some (isDuplicate c id))
        | Tick =>
            if 0 <? MaxTime options then
              c1 ← flush c;
              Ok (timedAckGroupingTracker options c1 true, None)
            else Stuck
        | Flush => serveFlush options c flushOnly
        | FlushAndClean => serveFlush options c flushAndClean
        | Close => serveFlush options c flushAndClose
        end
      else Stuck
  end.

(** A sequence of requests, served in order. *)
Fixpoint run (t : ackGroupingTracker) (rs : list request)
  : result ackGroupingTracker :=
  match rs with
  | [] => Ok t
  | r :: rest => '(t1, reply) ← serve t r; run t1 rest
  end.

(** The answer of [isDuplicate(id)] asked of the tracker now. *)
Definition answer (t : ackGroupingTracker) (id : MessageID) : option bool :=
  match serve t (IsDuplicate id) with
  | Ok (_, b) => b
  | _ => None
  end.

(** *** States the loop can be in, and sequences it can serve *)

(** The ids buffered for an individual ack, oldest first. *)
Definition buffered (c : cachedAcks) : option (list MessageID) :=
  non_nil (take (index c) (singleAcks c)).

(** Between two requests the buffer has a free slot and its first [index]
    slots hold ids. *)
Definition wf (c : cachedAcks) : Prop :=
  (index c < length (singleAcks c))%nat /\ is_Some (buffered c).

Definition tracker_wf (t : ackGroupingTracker) : Prop :=
  match t with
  | immediateAckGroupingTracker _ => True
  | timedAckGroupingTracker options c _ =>
      wf c /\ length (singleAcks c) = Z.to_nat (MaxSize options)
  end.

Definition is_running (t : ackGroupingTracker) : bool :=
  match t with
  | immediateAckGroupingTracker _ => true
  | timedAckGroupingTracker _ _ running => running
  end.

(** A request that keeps the watermark: anything but [flushAndClean].  The
    loop serves it when it has not been closed; the ticker only ticks when
    [MaxTime] is positive. *)
Definition keeps_watermark (options : AckGroupingOptions) (r : request) : bool :=
  match r with
  | FlushAndClean | Close => false
  | Tick => 0 <? MaxTime options
  | _ => true
  end.

(** The watermark after a request. *)
Definition watermark_after (w : MessageID) (r : request) : MessageID :=
  match r with
  | AddCumulative id => if messageIDCompare w id <? 0 then id else w
  | FlushAndClean => EarliestMessageID
  | _ => w
  end.

End WithMessageIDFuncs.

End Tracker.

(** ** A message id implementation *)

Module SpecMessageID.

(** Modelled from the spec: [messageIDHash] is defined outside the file of
    the tracker; the key of the pending-ack index is a hash of the position
    of the message, without its batch coordinates. *)
Definition hash (id : MessageID) : Z :=
  Int64.wrap (LedgerID id + 31 * EntryID id).

Definition cmp (a b : Z) (next : Z) : Z :=
  if a <? b then -1 else if b <? a then 1 else next.

(** Modelled from the spec: [messageIDCompare] is defined outside the file
    of the tracker; two message ids compare by position first, batch index
    second. *)
Definition compare (lhs rhs : MessageID) : Z :=
  cmp (LedgerID lhs) (LedgerID rhs)
    (cmp (EntryID lhs) (EntryID rhs)
       (cmp (BatchIdx lhs) (BatchIdx rhs) 0)).

(** Modelled from the spec: [messageIDIsBatch] is defined outside the file
    of the tracker; a message id with batch size at most 1 is not batched. *)
Definition isBatch (id : MessageID) : bool := 1 <? BatchSize id.

(** Modelled from the spec: [EarliestMessageID] is defined outside the file
    of the tracker; it is the earliest possible message id, before every
    position a broker assigns, and it is not batched. *)
Definition earliest : MessageID := newMessageID (-1) (-1) (-1) 0.

#[global] Instance funcs : MessageIDFuncs := {|
  messageIDHash := hash;
  messageIDCompare := compare;
  messageIDIsBatch := isBatch;
  EarliestMessageID := earliest;
|}.

End SpecMessageID.

(** ** Sample trackers and ids *)

Module Samples.
Import Tracker.

Definition options2 : AckGroupingOptions := {| MaxSize := 2; MaxTime := 0 |}.
Definition options3 : AckGroupingOptions := {| MaxSize := 3; MaxTime := 0 |}.
Definition options10 : AckGroupingOptions := {| MaxSize := 10; MaxTime := 0 |}.

(** A message alone in its entry, and the messages of a batch of three. *)
Definition single (entry : Z) : MessageID := newMessageID 1 entry (-1) 0.
Definition batched (idx : Z) : MessageID := newMessageID 1 2 idx 3.

End Samples.

(** ** The blocking reservation *)

Module Blocking.
Import MemoryLimit.

(** What the other goroutines do around one turn of the loop of
    [ReserveMemory], and how the wait of that turn ends. *)
Record turn : Type := {
  (** what they have left in [currentUsage] when the attempt starts: since
      the previous attempt, while the mutex was taken or during the wait *)
  seen : Z;
  (** what they write during the attempt, one value for each turn of the
      loop of [TryReserveMemory], as in [TryReserveMemory_under] *)
  raced : list Z;
  (** what [chCond.waitWithContext(ctx)] returns when the attempt is
      refused: true after a broadcast, false when the context is done *)
  woken : bool;
}.

(** The loop of [ReserveMemory], run with the mutex held.  When [turns] is
    used up the other goroutines are quiet: they write nothing more and
    broadcast nothing more. *)
Fixpoint reserveLoop (turns : list turn) (m : memoryLimitController)
    (size : Z) : result (memoryLimitController * bool) :=
  match turns with
  | [] =>
      let '(m1, ok) := TryReserveMemory m size in
      if ok then Ok (m1, true) else Stuck
  | t :: turns' =>
      let '(m1, ok) :=
        TryReserveMemory_under (raced t) (store m (seen t)) size in
      if ok then Ok (m1, true)
      else if woken t then reserveLoop turns' m1 size
      else Ok (m1, false)
  end.

(** [ReserveMemory]; [fast] is what the other goroutines write during the
    first attempt, made without the mutex. *)
Definition ReserveMemory (fast : list Z) (turns : list turn)
    (m : memoryLimitController) (size : Z)
  : result (memoryLimitController * bool) :=
  let '(m1, ok) := TryReserveMemory_under fast m size in
  if ok then Ok (m1, true) else reserveLoop turns m1 size.


(** The sum of the sizes given to [ReleaseMemory] in a sequence. *)
Fixpoint released (cs : list call) : Z :=
  match cs with
  | [] => 0
  | CallTryReserve _ :: cs' => released cs'
  | CallRelease size :: cs' => size + released cs'
  end.

Definition total (sizes : list Z) : Z := foldr Z.add 0 sizes.

End Blocking.

(** ** What a tracker has done and holds *)

Module TrackerViews.
Import Tracker.

(** The calls made to the callbacks so far, oldest first. *)
Definition calls (t : ackGroupingTracker) : list ackCall :=
  match t with
  | immediateAckGroupingTracker log => log
  | timedAckGroupingTracker _ c _ => acked c
  end.

(** The ids waiting in the buffer for the next flush. *)
Definition waiting (t : ackGroupingTracker) : list MessageID :=
  match t with
  | immediateAckGroupingTracker _ => []
  | timedAckGroupingTracker _ c _ => default [] (buffered c)
  end.

Definition individualAcks (log : list ackCall) : list MessageID :=
  omap (fun call => match call with
                    | IndividualAck id => Some id
                    | CumulativeAck _ => None
                    end) log.

Definition cumulativeAcks (log : list ackCall) : list MessageID :=
  omap (fun call => match call with
                    | IndividualAck _ => None
                    | CumulativeAck id => Some id
                    end) log.

(** The ids given to [add] in a sequence of requests, in order. *)
Definition added (rs : list request) : list MessageID :=
  omap (fun r => match r with Add id => Some id | _ => None end) rs.

(** What the immediate tracker passes to the callbacks for a sequence. *)
Definition forwarded (rs : list request) : list ackCall :=
  omap (fun r => match r with
                 | Add id => Some (IndividualAck id)
                 | AddCumulative id => Some (CumulativeAck id)
                 | _ => None
                 end) rs.

(** The four requests that flush. *)
Definition flushes (r : request) : Prop :=
  r = Flush \/ r = FlushAndClean \/ r = Close \/ r = Tick.

(** The ids sent to the individual-ack callback, followed by the ids still
    in the buffer, are the ids given to [add]. *)
Definition conserved (h : list request) (c : cachedAcks) : Prop :=
  exists ids, buffered c = Some ids /\
              individualAcks (acked c) ++ ids = added h.

Section WithMessageIDFuncs.

Context `{MessageIDFuncs}.

(** Some [addCumulative] of the requests [rs], served in order from the
    watermark [w], moves the watermark. *)
Fixpoint moved (w : MessageID) (rs : list request) : bool :=
  match rs with
  | [] => false
  | r :: rs' =>
      match r with
      | AddCumulative m => messageIDCompare w m <? 0
      | _ => false
      end
      || moved (watermark_after w r) rs'
  end.

(** Every key of the pending-ack index is the hash of a buffered id. *)
Definition index_covered (c : cachedAcks) : Prop :=
  forall k, is_Some (pendingAcks c !! k) ->
  exists id, In (Some id) (take (index c) (singleAcks c)) /\
             messageIDHash id = k.

(** The cumulative acks sent so far are below the watermark, strictly when
    one more is due, and each is strictly above the ones sent before. *)
Definition cumulative_sorted (c : cachedAcks) : Prop :=
  (forall x, In x (cumulativeAcks (acked c)) ->
     0 <= messageIDCompare (lastCumulativeAck c) x) /\
  (cumulativeAckRequired c = true ->
   forall x, In x (cumulativeAcks (acked c)) ->
     messageIDCompare x (lastCumulativeAck c) < 0) /\
  ForallOrdPairs (fun x y => messageIDCompare x y < 0)
    (cumulativeAcks (acked c)).

End WithMessageIDFuncs.

End TrackerViews.

(** ** More sample trackers and ids *)

Module MoreSamples.
Import Tracker.

Definition timed3 : AckGroupingOptions := {| MaxSize := 3; MaxTime := 5 |}.

(** Two messages alone in their entries whose positions have one hash. *)
Definition colliding1 : MessageID := newMessageID 32 0 (-1) 0.
Definition colliding2 : MessageID := newMessageID 1 1 (-1) 0.

(** A grouped tracker with one id in its buffer and a cumulative ack due. *)
Definition loaded : ackGroupingTracker :=
  timedAckGroupingTracker timed3
    {| singleAcks := [Some (Samples.single 7); None; None];
       index := 1;
       pendingAcks := {[SpecMessageID.hash (Samples.single 7) := None]};
       lastCumulativeAck := Samples.single 3;
       cumulativeAckRequired := true;
       acked := [] |}
    true.

(** The state of a grouped tracker that has served [add] for the entries
    4 and 5, [addCumulative] for the entry 3 and then a tick: the acks are
    sent, the buffer is empty (its slots keep the old ids) and no ack is
    due. *)
Definition flushed : cachedAcks :=
  {| singleAcks := [Some (Samples.single 4); Some (Samples.single 5); None];
     index := 0;
     pendingAcks := ∅;
     lastCumulativeAck := Samples.single 3;
     cumulativeAckRequired := false;
     acked := [IndividualAck (Samples.single 4);
               IndividualAck (Samples.single 5);
               CumulativeAck (Samples.single 3)] |}.

End MoreSamples.

(** * Properties *)

(** ** Facts on machine integers *)

Module Int64Facts.
Import Int64.

Lemma wrap_in_range z : in_range (wrap z).
Proof.
  unfold in_range, wrap, min_int, max_int, modulus.
  pose proof (Z.mod_pos_bound (z + 2 ^ 63) (2 ^ 64) ltac:(lia)). lia.
Qed.

Lemma wrap_shift z : exists k, wrap z = z + k * modulus.
Proof.
  exists (- ((z + 2 ^ 63) / modulus)). unfold wrap, modulus.
  pose proof (Z.div_mod (z + 2 ^ 63) (2 ^ 64) ltac:(lia)). lia.
Qed.

Lemma in_range_unique a b k :
  in_range a -> in_range b -> a = b + k * modulus -> a = b.
Proof. unfold in_range, min_int, max_int, modulus. lia. Qed.

Lemma wrap_id z : in_range z -> wrap z = z.
Proof.
  intros Hz. destruct (wrap_shift z) as [k Hk].
  apply (in_range_unique _ _ k); auto using wrap_in_range.
Qed.

(** Adding [size] back after subtracting it gives the old value, whatever
    wrapped in between. *)
Lemma add_neg_cancel u size :
  in_range u -> add (add u (neg size)) size = u.
Proof.
  intros Hu. unfold add, neg.
  destruct (wrap_shift (- size)) as [k1 H1].
  destruct (wrap_shift (u + wrap (- size))) as [k2 H2].
  destruct (wrap_shift (wrap (u + wrap (- size)) + size)) as [k3 H3].
  apply (in_range_unique _ _ (k1 + k2 + k3)); auto using wrap_in_range.
  lia.
Qed.

Lemma add_neg u size : add u (neg size) = wrap (u - size).
Proof.
  unfold add, neg.
  destruct (wrap_shift (- size)) as [k1 H1].
  destruct (wrap_shift (u + wrap (- size))) as [k2 H2].
  destruct (wrap_shift (u - size)) as [k3 H3].
  apply (in_range_unique _ _ (k1 + k2 - k3)); auto using wrap_in_range.
  lia.
Qed.

Lemma wrap_le z : min_int <= z -> wrap z <= z.
Proof.
  intros Hz. destruct (wrap_shift z) as [k Hk].
  pose proof (wrap_in_range z) as Hr.
  unfold in_range, min_int, max_int, modulus in *. lia.
Qed.

End Int64Facts.

(** ** The memory limit controller *)

Module MemoryLimitProofs.
Import MemoryLimit Int64Facts.

Lemma gate_closed_spec l c :
  BoolSpec (0 < l /\ l < c) (~ (0 < l /\ l < c)) ((0 <? l) && (l <? c)).
Proof.
  destruct (Z.ltb_spec 0 l), (Z.ltb_spec l c); simpl; constructor; lia.
Qed.

Lemma CompareAndSwapInt64_same m new :
  CompareAndSwapInt64 m (currentUsage m) new = (store m new, true).
Proof. unfold CompareAndSwapInt64. now rewrite Z.eqb_refl. Qed.

(** The equation of [TryReserveMemory] when nobody interferes. *)
Lemma TryReserveMemory_eq m size :
  TryReserveMemory m size =
  if IsMemoryLimited m && (limit m <? currentUsage m) then (m, false)
  else (store m (Int64.add (currentUsage m) size), true).
Proof.
  unfold TryReserveMemory; simpl. unfold LoadInt64.
  destruct (IsMemoryLimited m && (limit m <? currentUsage m)); [reflexivity|].
  apply CompareAndSwapInt64_same.
Qed.

(** Under interference the loop ends, on a value [cur] it read: either the
    initial one or one the other goroutines wrote. *)
Lemma TryReserveMemory_under_spec env : forall m size,
  exists cur, In cur (currentUsage m :: env) /\
    limit (fst (TryReserveMemory_under env m size)) = limit m /\
    (snd (TryReserveMemory_under env m size) = false ->
       (0 < limit m /\ limit m < cur) /\
       currentUsage (fst (TryReserveMemory_under env m size)) = cur) /\
    (snd (TryReserveMemory_under env m size) = true ->
       ~ (0 < limit m /\ limit m < cur) /\
       currentUsage (fst (TryReserveMemory_under env m size)) =
         Int64.add cur size).
Proof.
  induction env as [|v env IH]; intros m size; simpl;
    unfold LoadInt64, IsMemoryLimited.
  - exists (currentUsage m). split; [now left|].
    destruct (gate_closed_spec (limit m) (currentUsage m)) as [H|H].
    + simpl. repeat split; try discriminate; lia.
    + rewrite CompareAndSwapInt64_same. simpl.
      repeat split; try discriminate; lia.
  - destruct (gate_closed_spec (limit m) (currentUsage m)) as [H|H].
    + exists (currentUsage m). simpl.
      repeat split; try discriminate; auto; lia.
    + unfold CompareAndSwapInt64; simpl.
      destruct (Z.eqb_spec v (currentUsage m)) as [->|Hne]; simpl.
      * exists (currentUsage m).
        repeat split; try discriminate; auto; lia.
      * destruct (IH (store m v) size) as (cur & Hin & Hl & Hf & Ht).
        exists cur. simpl in *. repeat split; tauto.
Qed.

(** C1. [TryReserveMemory(size)] returns false and leaves the controller as
    it is exactly when the limit is enforced ([limit > 0]) and the usage it
    read is already above the limit; otherwise it returns true and the
    usage is advanced by [size] (in [int64] arithmetic).  [size] itself
    does not enter the test.  Against other goroutines the same holds of
    the value read by the turn of the loop that returns. *)
Theorem TryReserveMemory_spec : forall m size,
  (snd (TryReserveMemory m size) = false <->
     0 < limit m /\ limit m < currentUsage m) /\
  (snd (TryReserveMemory m size) = false ->
     fst (TryReserveMemory m size) = m) /\
  (snd (TryReserveMemory m size) = true ->
     fst (TryReserveMemory m size) =
       store m (Int64.add (currentUsage m) size)) /\
  (forall env, exists cur, In cur (currentUsage m :: env) /\
     (snd (TryReserveMemory_under env m size) = false <->
        0 < limit m /\ limit m < cur) /\
     (snd (TryReserveMemory_under env m size) = false ->
        currentUsage (fst (TryReserveMemory_under env m size)) = cur) /\
     (snd (TryReserveMemory_under env m size) = true ->
        currentUsage (fst (TryReserveMemory_under env m size)) =
          Int64.add cur size)).
Proof.
  intros m size. rewrite TryReserveMemory_eq. unfold IsMemoryLimited.
  destruct (gate_closed_spec (limit m) (currentUsage m)) as [H|H];
    simpl.
  all: repeat split; try discriminate; try tauto; try lia.
  all: intros env;
    destruct (TryReserveMemory_under_spec env m size) as (cur & Hin & _ & Hf & Ht);
    exists cur; split; [exact Hin|];
    destruct (snd (TryReserveMemory_under env m size)); intuition congruence.
Qed.

(** *** Sequences of calls *)

Lemma within_grace_mono m sizes sizes' :
  (forall s, In s sizes -> In s sizes') ->
  within_grace m sizes -> within_grace m sizes'.
Proof. intros Hsub [Hle|(s & Hs & Hle)]; [now left|right; eauto]. Qed.

Lemma exec_limit m c : limit (fst (exec m c)) = limit m.
Proof.
  destruct c as [size|size]; simpl.
  - rewrite TryReserveMemory_eq.
    now destruct (IsMemoryLimited m && (limit m <? currentUsage m)).
  - unfold ReleaseMemory; simpl.
    now destruct (_ && _).
Qed.

Lemma ReleaseMemory_usage m size :
  currentUsage (ReleaseMemory m size) = Int64.wrap (currentUsage m - size).
Proof.
  unfold ReleaseMemory; simpl. rewrite <- add_neg.
  now destruct (_ && _).
Qed.

Lemma exec_in_range m c :
  Int64.in_range (currentUsage m) ->
  Int64.in_range (currentUsage (fst (exec m c))).
Proof.
  intros Hm. destruct c as [size|size]; simpl.
  - rewrite TryReserveMemory_eq.
    destruct (IsMemoryLimited m && (limit m <? currentUsage m)); simpl; auto.
    apply wrap_in_range.
  - rewrite ReleaseMemory_usage. apply wrap_in_range.
Qed.

(** One admissible call keeps the usage within the grace window. *)
Lemma exec_within_grace m c sizes :
  0 < limit m -> Int64.in_range (currentUsage m) ->
  call_ok m c = true -> within_grace m sizes ->
  within_grace (fst (exec m c))
    (match snd (exec m c) with Some s => s :: sizes | None => sizes end).
Proof.
  intros Hlim Hr Hok Hg. destruct c as [size|size]; simpl in *.
  - rewrite TryReserveMemory_eq. unfold IsMemoryLimited in *.
    destruct (gate_closed_spec (limit m) (currentUsage m)) as [H|H]; simpl.
    + exact Hg.
    + right. exists size. split; [now left|].
      simpl in Hok. apply Z.leb_le in Hok. unfold Int64.add. simpl.
      pose proof (wrap_le (currentUsage m + size) Hok). lia.
  - apply andb_true_iff in Hok as [H0 Hmin].
    apply Z.leb_le in H0. apply Z.leb_le in Hmin.
    assert (Hnew : currentUsage (ReleaseMemory m size) = currentUsage m - size).
    { rewrite ReleaseMemory_usage. apply wrap_id.
      unfold Int64.in_range, Int64.max_int in *. lia. }
    assert (Hl : limit (ReleaseMemory m size) = limit m)
      by apply (exec_limit m (CallRelease size)).
    unfold within_grace in *. rewrite Hnew, Hl.
    destruct Hg as [Hle|(s & Hs & Hle)]; [left; lia|right; exists s; split; [auto|lia]].
Qed.

Lemma run_within_grace cs : forall m sizes,
  0 < limit m -> Int64.in_range (currentUsage m) ->
  calls_ok m cs = true -> within_grace m sizes ->
  within_grace (fst (run m cs)) (snd (run m cs) ++ sizes) /\
  limit (fst (run m cs)) = limit m.
Proof.
  induction cs as [|c cs IH]; intros m sizes Hlim Hr Hok Hg; simpl in *.
  - now split.
  - apply andb_true_iff in Hok as [Hc Hcs].
    pose proof (exec_within_grace m c sizes Hlim Hr Hc Hg) as Hstep.
    pose proof (exec_limit m c) as Hl.
    pose proof (exec_in_range m c Hr) as Hr'.
    destruct (exec m c) as [m1 r] eqn:He; simpl in *.
    rewrite <- Hl in Hlim.
    destruct (IH m1 _ Hlim Hr' Hcs Hstep) as [Hg2 Hl2].
    destruct (run m1 cs) as [m2 rs] eqn:Hrun; simpl in *.
    split; [|congruence].
    rewrite Hl in Hl2.
    eapply within_grace_mono; [|exact Hg2].
    intros s Hs. destruct r; simpl.
    + apply in_app_or in Hs as [Hs|[Hs|Hs]]; subst;
        [right; apply in_or_app; now left|now left|
         right; apply in_or_app; now right].
    + exact Hs.
Qed.

Lemma calls_ok_app cs1 : forall m cs2,
  calls_ok m (cs1 ++ cs2) = true -> calls_ok m cs1 = true.
Proof.
  induction cs1 as [|c cs1 IH]; intros m cs2 H; simpl in *; [reflexivity|].
  apply andb_true_iff in H as [Hc H]. rewrite Hc. simpl. eauto.
Qed.

(** C2, as amended.  Take a controller with a positive limit whose usage
    does not exceed it, and a sequence of [TryReserveMemory] and
    [ReleaseMemory] calls in which no released size is negative and no call
    takes the counter below the least [int64].  Then after every prefix of
    the sequence the usage is at most the limit, or exceeds it by at most
    the size of one reservation that succeeded in that prefix.  Moreover a
    [TryReserveMemory] that succeeds started from a usage within the limit,
    and one attempted above the limit returns false. *)
Theorem usage_within_grace_window : forall m pre rest,
  0 < limit m ->
  Int64.in_range (currentUsage m) ->
  currentUsage m <= limit m ->
  calls_ok m (pre ++ rest) = true ->
  (CurrentUsage (fst (run m pre)) <= limit m \/
   exists s, In s (snd (run m pre)) /\
             CurrentUsage (fst (run m pre)) <= limit m + s) /\
  (forall m0 size, limit m0 = limit m ->
     (snd (TryReserveMemory m0 size) = true -> currentUsage m0 <= limit m) /\
     (limit m < currentUsage m0 -> snd (TryReserveMemory m0 size) = false)).
Proof.
  intros m pre rest Hlim Hr Hle Hok. split.
  - apply calls_ok_app in Hok.
    destruct (run_within_grace pre m [] Hlim Hr Hok (or_introl Hle)) as [Hg Hl].
    rewrite app_nil_r in Hg. unfold within_grace in Hg.
    unfold CurrentUsage, LoadInt64. now rewrite Hl in Hg.
  - intros m0 size Hl0. rewrite TryReserveMemory_eq. unfold IsMemoryLimited.
    destruct (gate_closed_spec (limit m0) (currentUsage m0)) as [H|H]; simpl;
      split; intros; try discriminate; try reflexivity; lia.
Qed.

Lemma usage_within_grace_window_witness :
  let m := NewMemoryLimitController 10 in
  let cs := [CallTryReserve 8; CallTryReserve 7; CallTryReserve 1;
             CallRelease 7; CallTryReserve 4] in
  CurrentUsage (fst (run m cs)) = 12 /\
  (CurrentUsage (fst (run m cs)) <= limit m \/
   exists s, In s (snd (run m cs)) /\
             CurrentUsage (fst (run m cs)) <= limit m + s).
Proof.
  split; [reflexivity|].
  apply (usage_within_grace_window (NewMemoryLimitController 10)
           [CallTryReserve 8; CallTryReserve 7; CallTryReserve 1;
            CallRelease 7; CallTryReserve 4] []).
  - simpl; lia.
  - unfold Int64.in_range, Int64.min_int, Int64.max_int; simpl; lia.
  - simpl; lia.
  - vm_compute; reflexivity.
Defined.

(** C2 as stated fails: a negative size is accepted by [ReleaseMemory], and
    releasing -100 against a limit of 10 leaves the usage at 100 although
    no reservation succeeded. *)
Lemma usage_within_grace_window_counterexample :
  let m := NewMemoryLimitController 10 in
  let cs := [CallRelease (-100)] in
  0 < limit m /\
  CurrentUsage (fst (run m cs)) = 100 /\
  snd (run m cs) = [] /\
  ~ (CurrentUsage (fst (run m cs)) <= limit m \/
     exists s, In s (snd (run m cs)) /\
               CurrentUsage (fst (run m cs)) <= limit m + s).
Proof.
  simpl. repeat split; try reflexivity.
  intros [H|(s & [] & _)]. vm_compute in H. congruence.
Qed.

(** *** Release *)

Lemma ReleaseMemory_limit m size : limit (ReleaseMemory m size) = limit m.
Proof. apply (exec_limit m (CallRelease size)). Qed.

(** The test of [ReleaseMemory], on the usage before and after. *)
Lemma ReleaseMemory_chCond m size :
  Int64.in_range (currentUsage m) ->
  chCond (ReleaseMemory m size) =
  if (limit m <? currentUsage m) &&
     (currentUsage (ReleaseMemory m size) <=? limit m)
  then S (chCond m) else chCond m.
Proof.
  intros Hr. pose proof (ReleaseMemory_usage m size) as Hu.
  rewrite <- add_neg in Hu. rewrite Hu.
  unfold ReleaseMemory; simpl. rewrite (add_neg_cancel _ _ Hr).
  now destruct (_ && _).
Qed.

(** C8. [ReleaseMemory(size)] subtracts [size] from the usage (in [int64]
    arithmetic) and leaves the limit alone; it broadcasts, once, if and
    only if the usage was above the limit before and is at or below it
    after; a release that does not cross the limit in this way broadcasts
    nothing. *)
Theorem ReleaseMemory_broadcast_iff_crossing : forall m size,
  Int64.in_range (currentUsage m) ->
  currentUsage (ReleaseMemory m size) = Int64.wrap (currentUsage m - size) /\
  limit (ReleaseMemory m size) = limit m /\
  (chCond (ReleaseMemory m size) = S (chCond m) <->
     limit m < currentUsage m /\ currentUsage (ReleaseMemory m size) <= limit m) /\
  (~ (limit m < currentUsage m /\ currentUsage (ReleaseMemory m size) <= limit m) ->
     chCond (ReleaseMemory m size) = chCond m).
Proof.
  intros m size Hr.
  split; [apply ReleaseMemory_usage|]. split; [apply ReleaseMemory_limit|].
  rewrite (ReleaseMemory_chCond m size Hr).
  destruct (Z.ltb_spec (limit m) (currentUsage m));
    destruct (Z.leb_spec (currentUsage (ReleaseMemory m size)) (limit m));
    simpl; split; intros; try tauto; try lia.
Qed.

Lemma ReleaseMemory_broadcast_iff_crossing_witness :
  let m := {| limit := 10; chCond := 0; currentUsage := 12 |} in
  chCond (ReleaseMemory m 5) = 1%nat /\
  chCond (ReleaseMemory (ReleaseMemory m 5) 5) = 1%nat /\
  (chCond (ReleaseMemory m 5) = S (chCond m) <->
     limit m < currentUsage m /\ currentUsage (ReleaseMemory m 5) <= limit m).
Proof.
  split; [reflexivity|]. split; [reflexivity|].
  apply (ReleaseMemory_broadcast_iff_crossing
           {| limit := 10; chCond := 0; currentUsage := 12 |} 5).
  unfold Int64.in_range, Int64.min_int, Int64.max_int; simpl; lia.
Defined.

(** C9. The three operations are total functions of the controller and of
    the size: nothing in them can panic, whatever the sign of the size.
    [ReleaseMemory] with a negative size acts on the usage as a
    reservation: the usage grows by the absolute value of the size (in
    [int64] arithmetic), which is what [ForceReserveMemory] does with the
    negated size and what a [TryReserveMemory] that is admitted does. *)
Theorem ReleaseMemory_negative_reserves : forall m size,
  size < 0 ->
  currentUsage (ReleaseMemory m size) =
    Int64.wrap (currentUsage m + Z.abs size) /\
  currentUsage (ReleaseMemory m size) =
    currentUsage (ForceReserveMemory m (Int64.neg size)) /\
  (snd (TryReserveMemory m (Int64.neg size)) = true ->
   currentUsage (ReleaseMemory m size) =
     currentUsage (fst (TryReserveMemory m (Int64.neg size)))).
Proof.
  intros m size Hneg. rewrite ReleaseMemory_usage.
  split; [f_equal; lia|].
  split; [simpl; now rewrite add_neg|].
  rewrite TryReserveMemory_eq.
  destruct (IsMemoryLimited m && (limit m <? currentUsage m)); simpl;
    [discriminate|].
  intros _. now rewrite add_neg.
Qed.

Lemma ReleaseMemory_negative_reserves_witness :
  let m := {| limit := 10; chCond := 0; currentUsage := 4 |} in
  currentUsage (ReleaseMemory m (-3)) = 7 /\
  currentUsage (ReleaseMemory m (-3)) = Int64.wrap (currentUsage m + Z.abs (-3)).
Proof.
  split; [reflexivity|].
  refine (proj1 (ReleaseMemory_negative_reserves
                   {| limit := 10; chCond := 0; currentUsage := 4 |} (-3) _)).
  lia.
Defined.

End MemoryLimitProofs.

(** ** The ack grouping tracker *)

Module TrackerProofs.
Import Tracker.

Lemma non_nil_snoc s : forall ids id,
  non_nil s = Some ids -> non_nil (s ++ [Some id]) = Some (ids ++ [id]).
Proof.
  induction s as [|[x|] s IH]; intros ids id Hs; simpl in *.
  - now inversion Hs.
  - destruct (non_nil s) as [ids'|] eqn:E; [|discriminate].
    inversion Hs; subst. now rewrite (IH ids' id eq_refl).
  - discriminate.
Qed.

Lemma non_nil_In s : forall ids id,
  non_nil s = Some ids -> (In id ids <-> In (Some id) s).
Proof.
  induction s as [|[x|] s IH]; intros ids id Hs; simpl in *.
  - inversion Hs; subst. simpl. tauto.
  - destruct (non_nil s) as [ids'|] eqn:E; [|discriminate].
    inversion Hs; subst. simpl. rewrite (IH ids' id eq_refl).
    split; intros [Hx|Hx]; auto; left; congruence.
  - discriminate.
Qed.

Lemma take_insert_snoc {A} (l : list A) i x :
  (i < length l)%nat -> take (S i) (<[i := x]> l) = take i l ++ [x].
Proof.
  intros Hi. erewrite take_S_r by (now apply list_lookup_insert_eq).
  now rewrite take_insert_ge by lia.
Qed.

Lemma ackList_app ids : forall log,
  ackList ids log = log ++ map IndividualAck ids.
Proof.
  unfold ackList.
  induction ids as [|i ids IH]; intros log; simpl.
  - now rewrite app_nil_r.
  - rewrite IH. unfold ackIndividual. now rewrite <- app_assoc.
Qed.

Section WithMessageIDFuncs.

Context `{MessageIDFuncs}.

(** *** [addAndCheckIfFull] *)

Lemma addAndCheckIfFull_ok c id ids :
  (index c < length (singleAcks c))%nat ->
  buffered c = Some ids ->
  exists c1,
    addAndCheckIfFull c id =
      Ok (c1, (S (index c) =? length (singleAcks c))%nat) /\
    index c1 = S (index c) /\
    length (singleAcks c1) = length (singleAcks c) /\
    buffered c1 = Some (ids ++ [id]) /\
    pendingAcks c1 = markAcked (pendingAcks c) id /\
    lastCumulativeAck c1 = lastCumulativeAck c /\
    cumulativeAckRequired c1 = cumulativeAckRequired c /\
    acked c1 = acked c.
Proof.
  intros Hi Hb. unfold addAndCheckIfFull.
  destruct (Nat.ltb_spec (index c) (length (singleAcks c))) as [_|]; [|lia].
  eexists; split; [rewrite length_insert; reflexivity|]; simpl.
  rewrite length_insert; repeat split; auto.
  unfold buffered in *; simpl.
  rewrite take_insert_snoc by exact Hi. now apply non_nil_snoc.
Qed.

(** *** [flushIndividualAcks] *)

Lemma flushEntry_key pending id :
  flushEntry pending id !! messageIDHash id = None.
Proof.
  unfold flushEntry.
  destruct (pending !! messageIDHash id) as [ackSet|] eqn:E; [|exact E].
  apply lookup_delete_eq.
Qed.

Lemma flushEntry_other pending id k :
  k <> messageIDHash id -> flushEntry pending id !! k = pending !! k.
Proof.
  intros Hk. unfold flushEntry.
  destruct (pending !! messageIDHash id) as [[b|]|]; [| |reflexivity].
  - destruct (BitSet.None_ _);
      rewrite ?lookup_delete_ne, ?lookup_insert_ne by congruence; reflexivity.
  - rewrite !lookup_delete_ne by congruence. reflexivity.
Qed.

Lemma flushEntry_None pending id k :
  pending !! k = None -> flushEntry pending id !! k = None.
Proof.
  intros Hk. destruct (decide (k = messageIDHash id)) as [->|Hne].
  - apply flushEntry_key.
  - now rewrite flushEntry_other.
Qed.

Lemma foldl_flushEntry_None ids : forall pending k,
  pending !! k = None -> foldl flushEntry pending ids !! k = None.
Proof.
  induction ids as [|i ids IH]; intros pending k Hk; simpl; [exact Hk|].
  apply IH. now apply flushEntry_None.
Qed.

(** After the loop of [flushIndividualAcks] no flushed id has an entry. *)
Lemma foldl_flushEntry_In ids : forall pending id,
  In id ids -> foldl flushEntry pending ids !! messageIDHash id = None.
Proof.
  induction ids as [|i ids IH]; intros pending id Hin; simpl; [destruct Hin|].
  destruct Hin as [->|Hin]; [|now apply IH].
  apply foldl_flushEntry_None, flushEntry_key.
Qed.

Lemma flushIndividualAcks_ok c ids :
  (index c <= length (singleAcks c))%nat ->
  buffered c = Some ids ->
  exists c',
    flushIndividualAcks c = Ok c' /\
    index c' = 0%nat /\
    singleAcks c' = singleAcks c /\
    pendingAcks c' = foldl flushEntry (pendingAcks c) ids /\
    lastCumulativeAck c' = lastCumulativeAck c /\
    cumulativeAckRequired c' = cumulativeAckRequired c /\
    acked c' = acked c ++ map IndividualAck ids.
Proof.
  intros Hi Hb. unfold flushIndividualAcks, buffered in *.
  destruct (Nat.ltb_spec 0 (index c)) as [Hpos|Hz].
  - destruct (Nat.leb_spec (index c) (length (singleAcks c))); [|lia].
    rewrite Hb. eexists; split; [reflexivity|]; simpl.
    rewrite ackList_app. repeat split; reflexivity.
  - assert (Hi0 : index c = 0%nat) by lia.
    rewrite Hi0 in Hb. simpl in Hb. inversion Hb; subst; simpl.
    exists c. rewrite app_nil_r. repeat split; auto.
Qed.

Lemma flushCumulativeAck_fields c :
  index (flushCumulativeAck c) = index c /\
  singleAcks (flushCumulativeAck c) = singleAcks c /\
  pendingAcks (flushCumulativeAck c) = pendingAcks c /\
  lastCumulativeAck (flushCumulativeAck c) = lastCumulativeAck c.
Proof.
  unfold flushCumulativeAck. destruct (cumulativeAckRequired c); simpl; auto.
Qed.

Lemma flush_ok c ids :
  (index c <= length (singleAcks c))%nat ->
  buffered c = Some ids ->
  exists c',
    flush c = Ok c' /\
    index c' = 0%nat /\
    singleAcks c' = singleAcks c /\
    pendingAcks c' = foldl flushEntry (pendingAcks c) ids /\
    lastCumulativeAck c' = lastCumulativeAck c /\
    cumulativeAckRequired c' = false.
Proof.
  intros Hi Hb.
  destruct (flushIndividualAcks_ok c ids Hi Hb)
    as (c1 & Hf & Hidx & Hs & Hp & Hl & _).
  exists (flushCumulativeAck c1). unfold flush. rewrite Hf. simpl.
  destruct (flushCumulativeAck_fields c1) as (E1 & E2 & E3 & E4).
  rewrite E1, E2, E3, E4. repeat split; auto.
  unfold flushCumulativeAck.
  destruct (cumulativeAckRequired c1) eqn:E; [reflexivity|exact E].
Qed.

Lemma wf_empty_buffer c :
  index c = 0%nat -> (0 < length (singleAcks c))%nat -> wf c.
Proof.
  intros Hi Hl. unfold wf, buffered. rewrite Hi. simpl. split; [lia|eauto].
Qed.

(** *** One request *)

Lemma tryUpdateLastCumulativeAck_fields c id :
  index (tryUpdateLastCumulativeAck c id) = index c /\
  singleAcks (tryUpdateLastCumulativeAck c id) = singleAcks c /\
  pendingAcks (tryUpdateLastCumulativeAck c id) = pendingAcks c /\
  lastCumulativeAck (tryUpdateLastCumulativeAck c id) =
    (if messageIDCompare (lastCumulativeAck c) id <? 0 then id
     else lastCumulativeAck c).
Proof.
  unfold tryUpdateLastCumulativeAck.
  destruct (messageIDCompare (lastCumulativeAck c) id <? 0); simpl; auto.
Qed.

Lemma wf_fields c c' :
  index c' = index c -> singleAcks c' = singleAcks c -> wf c -> wf c'.
Proof. unfold wf, buffered. now intros -> ->. Qed.

(** A running loop in a well-formed state serves every request, but a tick
    of a ticker that was never started, and is left in a well-formed
    state. *)
Lemma serve_timed options c r :
  wf c -> length (singleAcks c) = Z.to_nat (MaxSize options) ->
  (r = Tick -> 0 < MaxTime options) ->
  exists c' reply,
    serve (timedAckGroupingTracker options c true) r =
      Ok (timedAckGroupingTracker options c'
            (if decide (r = Close) then false else true), reply) /\
    wf c' /\
    length (singleAcks c') = Z.to_nat (MaxSize options) /\
    lastCumulativeAck c' = watermark_after (lastCumulativeAck c) r.
Proof.
  intros [Hi [ids Hb]] Hlen Htick.
  assert (Hflush : exists c1,
            flush c = Ok c1 /\ index c1 = 0%nat /\
            singleAcks c1 = singleAcks c /\
            lastCumulativeAck c1 = lastCumulativeAck c).
  { destruct (flush_ok c ids ltac:(lia) Hb)
      as (c1 & Hf & H0 & Hs & _ & Hl & _). eauto. }
  destruct r; simpl.
  - (* Add *)
    destruct (addAndCheckIfFull_ok c id ids Hi Hb)
      as (c1 & Ha & Hidx & Hl1 & Hb1 & _ & Hw & _ & _).
    destruct (Nat.eqb_spec (S (index c)) (length (singleAcks c))) as [Hfull|Hn];
      rewrite Ha; simpl.
    + destruct (flushIndividualAcks_ok c1 _ ltac:(lia) Hb1)
        as (c2 & Hf & H0 & Hs & _ & Hl & _).
      rewrite Hf; simpl. exists c2, None. split; [reflexivity|].
      split; [|split].
      * apply wf_empty_buffer; [exact H0|rewrite Hs; lia].
      * now rewrite Hs, Hl1.
      * simpl. now rewrite Hl.
    + exists c1, None. split; [reflexivity|]. rewrite Hl1.
      repeat split; [lia|eauto|exact Hlen|exact Hw].
  - (* AddCumulative *)
    destruct (tryUpdateLastCumulativeAck_fields c id) as (E1 & E2 & _ & E4).
    eexists _, None. split; [reflexivity|].
    assert (Hwf : wf (tryUpdateLastCumulativeAck c id))
      by (apply (wf_fields c); [exact E1|exact E2|split; eauto]).
    destruct (MaxTime options <=? 0).
    + destruct (flushCumulativeAck_fields (tryUpdateLastCumulativeAck c id))
        as (F1 & F2 & _ & F4).
      rewrite F2, F4, E2, E4. split; [|split; [exact Hlen|reflexivity]].
      now apply (wf_fields (tryUpdateLastCumulativeAck c id)).
    + rewrite E2, E4. split; [exact Hwf|split; [exact Hlen|reflexivity]].
  - (* IsDuplicate *)
    eexists c, _. split; [reflexivity|]. repeat split; eauto.
  - (* Flush *)
    destruct Hflush as (c1 & Hf & H0 & Hs & Hl).
    unfold serveFlush. rewrite Hf; simpl. exists c1, None.
    split; [reflexivity|]. rewrite Hs.
    split; [|split; [exact Hlen|exact Hl]].
    apply wf_empty_buffer; [exact H0|rewrite Hs; lia].
  - (* FlushAndClean *)
    destruct Hflush as (c1 & Hf & H0 & Hs & Hl).
    unfold serveFlush. rewrite Hf; simpl. exists (clean c1), None.
    split; [reflexivity|]. simpl. rewrite length_replicate, Hs.
    split; [|split; [exact Hlen|reflexivity]].
    apply wf_empty_buffer; [reflexivity|simpl; rewrite length_replicate, Hs; lia].
  - (* Close *)
    destruct Hflush as (c1 & Hf & H0 & Hs & Hl).
    unfold serveFlush. rewrite Hf; simpl. exists c1, None.
    split; [reflexivity|]. rewrite Hs.
    split; [|split; [exact Hlen|exact Hl]].
    apply wf_empty_buffer; [exact H0|rewrite Hs; lia].
  - (* Tick *)
    specialize (Htick eq_refl).
    destruct (Z.ltb_spec 0 (MaxTime options)) as [_|]; [|lia].
    destruct Hflush as (c1 & Hf & H0 & Hs & Hl).
    rewrite Hf; simpl. exists c1, None.
    split; [reflexivity|]. rewrite Hs.
    split; [|split; [exact Hlen|exact Hl]].
    apply wf_empty_buffer; [exact H0|rewrite Hs; lia].
Qed.

(** *** Sequences of requests *)

Lemma serve_wf t r t' reply :
  tracker_wf t -> serve t r = Ok (t', reply) -> tracker_wf t'.
Proof.
  destruct t as [log|options c [|]]; simpl.
  - intros _. destruct r; intros Hs; inversion Hs; exact I.
  - intros [Hwf Hlen] Hs.
    destruct (decide (r = Tick /\ MaxTime options <= 0)) as [[-> Hle]|Hn].
    + simpl in Hs. destruct (Z.ltb_spec 0 (MaxTime options)); [lia|discriminate].
    + assert (Ht : r = Tick -> 0 < MaxTime options).
      { intros Hr. destruct (Z.lt_ge_cases 0 (MaxTime options)); [auto|].
        exfalso. apply Hn. split; [auto|lia]. }
      destruct (serve_timed options c r Hwf Hlen Ht)
        as (c' & reply' & Hs' & Hwf' & Hlen' & _).
      simpl in Hs'. rewrite Hs' in Hs. inversion Hs; subst. now split.
  - discriminate.
Qed.

Lemma run_wf rs : forall t t',
  tracker_wf t -> run t rs = Ok t' -> tracker_wf t'.
Proof.
  induction rs as [|r rs IH]; intros t t' Hwf Hrun; simpl in Hrun.
  - inversion Hrun; subst. exact Hwf.
  - destruct (serve t r) as [[t1 reply]| |] eqn:Hs; try discriminate.
    simpl in Hrun. eapply IH; [|exact Hrun]. eapply serve_wf; eauto.
Qed.

Lemma newAckGroupingTracker_timed options :
  1 < MaxSize options ->
  newAckGroupingTracker (Some options) =
    timedAckGroupingTracker options (newCachedAcks options) true /\
  wf (newCachedAcks options) /\
  length (singleAcks (newCachedAcks options)) = Z.to_nat (MaxSize options).
Proof.
  intros Hsize. unfold newAckGroupingTracker; simpl.
  destruct (Z.leb_spec (MaxSize options) 1); [lia|].
  split; [reflexivity|]. simpl. rewrite length_replicate. split; [|reflexivity].
  apply wf_empty_buffer; [reflexivity|]. simpl. rewrite length_replicate. lia.
Qed.

Lemma newAckGroupingTracker_wf options :
  tracker_wf (newAckGroupingTracker options).
Proof.
  unfold newAckGroupingTracker.
  destruct (Z.leb_spec (MaxSize (default defaultOptions options)) 1) as [|Hs];
    [exact I|].
  destruct (newAckGroupingTracker_timed _ Hs) as (_ & Hwf & Hlen).
  now split.
Qed.

(** The timed tracker stays the timed tracker, with its options. *)
Lemma serve_timed_shape options c b r t reply :
  serve (timedAckGroupingTracker options c b) r = Ok (t, reply) ->
  exists c1 b1, t = timedAckGroupingTracker options c1 b1.
Proof.
  unfold serve, serveFlush. intros Hs.
  destruct b; [|discriminate].
  destruct r; simpl in Hs;
    repeat match type of Hs with
           | context [mbind _ ?x] =>
               let E := fresh in destruct x as [?| |] eqn:E; simpl in Hs
           | context [let '(_, _) := ?x in _] => destruct x; simpl in Hs
           | context [if ?b then _ else _] => destruct b; simpl in Hs
           end; inversion Hs; eauto.
Qed.

Lemma run_timed_shape rs : forall options c b t,
  run (timedAckGroupingTracker options c b) rs = Ok t ->
  exists c1 b1, t = timedAckGroupingTracker options c1 b1.
Proof.
  induction rs as [|r rs IH]; intros options c b t Hrun; cbn [run] in Hrun.
  - inversion Hrun. eauto.
  - destruct (serve (timedAckGroupingTracker options c b) r)
      as [[t1 reply]| |] eqn:Hs; try discriminate.
    destruct (serve_timed_shape _ _ _ _ _ _ Hs) as (c1 & b1 & ->).
    simpl in Hrun. eapply IH; exact Hrun.
Qed.

(** A sequence without [flushAndClean] and [close] is served to its end,
    and moves the watermark as [watermark_after] says. *)
Lemma run_keeps_watermark options rs : forall c,
  wf c -> length (singleAcks c) = Z.to_nat (MaxSize options) ->
  forallb (keeps_watermark options) rs = true ->
  exists c',
    run (timedAckGroupingTracker options c true) rs =
      Ok (timedAckGroupingTracker options c' true) /\
    wf c' /\
    lastCumulativeAck c' = fold_left watermark_after rs (lastCumulativeAck c).
Proof.
  induction rs as [|r rs IH]; intros c Hwf Hlen Hrs.
  - exists c. split; [reflexivity|split; [exact Hwf|reflexivity]].
  - simpl in Hrs. apply andb_true_iff in Hrs as [Hr Hrs].
    destruct (serve_timed options c r Hwf Hlen) as (c1 & reply & Hs & Hwf1 & Hlen1 & Hw).
    { intros ->. simpl in Hr. lia. }
    destruct (decide (r = Close)) as [->|_]; [discriminate|].
    destruct (IH c1 Hwf1 Hlen1 Hrs) as (c' & Hrun & Hwf' & Hw').
    exists c'. cbn [run]. rewrite Hs. simpl.
    split; [exact Hrun|]. split; [exact Hwf'|]. now rewrite Hw', Hw.
Qed.

Section WithOrder.

(** [messageIDCompare] is the three-way comparison of a total preorder. *)
Hypothesis compare_swap : forall a b,
  messageIDCompare a b <= 0 -> 0 <= messageIDCompare b a.
Hypothesis compare_trans : forall a b c,
  0 <= messageIDCompare a b -> 0 <= messageIDCompare b c ->
  0 <= messageIDCompare a c.

Lemma compare_refl a : 0 <= messageIDCompare a a.
Proof.
  destruct (Z.le_gt_cases (messageIDCompare a a) 0); [auto|lia].
Qed.

(** The watermark only moves forward. *)
Lemma watermark_after_ge w r :
  r <> FlushAndClean -> 0 <= messageIDCompare (watermark_after w r) w.
Proof.
  destruct r; simpl; intros Hr; try congruence; try apply compare_refl.
  destruct (Z.ltb_spec (messageIDCompare w id) 0); [|apply compare_refl].
  apply compare_swap. lia.
Qed.

Lemma watermark_after_covers w m :
  0 <= messageIDCompare (watermark_after w (AddCumulative m)) m.
Proof.
  simpl. destruct (Z.ltb_spec (messageIDCompare w m) 0);
    [apply compare_refl|assumption].
Qed.

(** The watermark is at least every id submitted to [addCumulative]. *)
Lemma fold_watermark_covers rs : forall w (P : MessageID -> Prop),
  (forall r, In r rs -> r <> FlushAndClean) ->
  (forall m, P m -> 0 <= messageIDCompare w m) ->
  forall m, P m \/ In (AddCumulative m) rs ->
  0 <= messageIDCompare (fold_left watermark_after rs w) m.
Proof.
  induction rs as [|r rs IH]; intros w P Hrs HP m Hm; simpl.
  - destruct Hm as [Hm|[]]. now apply HP.
  - apply (IH (watermark_after w r) (fun m => P m \/ r = AddCumulative m)).
    + intros r' Hr'. apply Hrs. now right.
    + intros m' [Hm'| ->].
      * apply (compare_trans _ w); [|now apply HP].
        apply watermark_after_ge, Hrs. now left.
      * apply watermark_after_covers.
    + destruct Hm as [Hm|[Hm|Hm]]; auto.
Qed.

Lemma keeps_watermark_not_clean options rs :
  forallb (keeps_watermark options) rs = true ->
  forall r, In r rs -> r <> FlushAndClean.
Proof.
  intros Hrs r Hr ->.
  rewrite forallb_forall in Hrs. now specialize (Hrs _ Hr).
Qed.

(** C3. Take the grouped tracker ([MaxSize > 1]) and any sequence of
    requests without [flushAndClean] that the loop serves (no [close], no
    tick of a stopped ticker).  The sequence is served to its end, and
    afterwards [isDuplicate(id)] is true for every [id] that is less than
    or equal to some [m] passed to [addCumulative] in the sequence,
    flushed or not.  The reason is in [tryUpdateLastCumulativeAck]: it
    replaces the watermark only by a strictly greater id, so the new
    watermark is at least the old one and at least the submitted id. *)
Theorem isDuplicate_below_cumulative : forall options rs m id,
  1 < MaxSize options ->
  forallb (keeps_watermark options) rs = true ->
  In (AddCumulative m) rs ->
  messageIDCompare id m <= 0 ->
  (exists t, run (newAckGroupingTracker (Some options)) rs = Ok t /\
             answer t id = Some true) /\
  (forall c x,
     0 <= messageIDCompare (lastCumulativeAck (tryUpdateLastCumulativeAck c x))
            (lastCumulativeAck c) /\
     0 <= messageIDCompare (lastCumulativeAck (tryUpdateLastCumulativeAck c x)) x /\
     (lastCumulativeAck (tryUpdateLastCumulativeAck c x) <> lastCumulativeAck c ->
      messageIDCompare (lastCumulativeAck c) x < 0)).
Proof.
  intros options rs m id Hsize Hrs Hm Hid. split.
  - destruct (newAckGroupingTracker_timed options Hsize) as (-> & Hwf & Hlen).
    destruct (run_keeps_watermark options rs _ Hwf Hlen Hrs)
      as (c' & Hrun & _ & Hw).
    eexists. split; [exact Hrun|].
    unfold answer; simpl. unfold isDuplicate.
    assert (Hge : 0 <= messageIDCompare (lastCumulativeAck c') id).
    { apply (compare_trans _ m); [|now apply compare_swap].
      rewrite Hw.
      apply (fold_watermark_covers rs _ (fun _ => False));
        [now apply (keeps_watermark_not_clean options)|tauto|now right]. }
    destruct (Z.leb_spec 0 (messageIDCompare (lastCumulativeAck c') id));
      [reflexivity|lia].
  - intros c x.
    destruct (tryUpdateLastCumulativeAck_fields c x) as (_ & _ & _ & ->).
    pose proof (watermark_after_ge (lastCumulativeAck c) (AddCumulative x)) as Hge.
    pose proof (watermark_after_covers (lastCumulativeAck c) x) as Hcov.
    simpl in Hge, Hcov.
    split; [apply Hge; discriminate|]. split; [exact Hcov|].
    destruct (Z.ltb_spec (messageIDCompare (lastCumulativeAck c) x) 0);
      [auto|congruence].
Qed.

End WithOrder.

(** C10. If [messageIDCompare] finds an id equal to itself then, with the
    grouped tracker ([MaxSize > 1]), [isDuplicate(EarliestMessageID())] is
    true right after construction and right after every [flushAndClean],
    although nothing was acknowledged: the watermark is then the earliest
    id, and [isDuplicate] accepts a watermark equal to the id. *)
Theorem isDuplicate_earliest_when_clean : forall options,
  1 < MaxSize options ->
  0 <= messageIDCompare EarliestMessageID EarliestMessageID ->
  answer (newAckGroupingTracker (Some options)) EarliestMessageID = Some true /\
  (forall rs t,
     run (newAckGroupingTracker (Some options)) rs = Ok t ->
     is_running t = true ->
     exists t', run t [FlushAndClean] = Ok t' /\
                is_running t' = true /\
                answer t' EarliestMessageID = Some true).
Proof.
  intros options Hsize Hrefl.
  assert (Hdup : forall c, lastCumulativeAck c = EarliestMessageID ->
                           isDuplicate c EarliestMessageID = true).
  { intros c Hc. unfold isDuplicate. rewrite Hc.
    destruct (Z.leb_spec 0 (messageIDCompare EarliestMessageID EarliestMessageID));
      [reflexivity|lia]. }
  split.
  - destruct (newAckGroupingTracker_timed options Hsize) as (-> & _ & _).
    unfold answer; simpl. now rewrite Hdup.
  - intros rs t Hrun Hrunning.
    pose proof (run_wf rs _ _ (newAckGroupingTracker_wf _) Hrun) as Hwf.
    destruct (newAckGroupingTracker_timed options Hsize) as (Hnew & _ & _).
    rewrite Hnew in Hrun.
    destruct (run_timed_shape rs _ _ _ _ Hrun) as (c & running & ->).
    simpl in Hrunning, Hwf. subst running. destruct Hwf as [Hwf Hlen].
    destruct (serve_timed options c FlushAndClean Hwf Hlen ltac:(discriminate))
      as (c' & reply & Hs & _ & _ & Hw).
    destruct (decide (FlushAndClean = Close)) as [Habs|_]; [discriminate|].
    eexists. cbn [run]. rewrite Hs. simpl.
    split; [reflexivity|]. split; [reflexivity|].
    unfold answer; simpl. now rewrite Hdup.
Qed.


(** *** Filling the buffer *)

Lemma run_app rs1 : forall t rs2,
  run t (rs1 ++ rs2) = t' ← run t rs1; run t' rs2.
Proof.
  induction rs1 as [|r rs1 IH]; intros t rs2; simpl; [reflexivity|].
  destruct (serve t r) as [[t1 reply]| |]; simpl; auto.
Qed.

(** An [add] that leaves room in the buffer only records the id. *)
Lemma serve_Add_room options c id ids :
  (S (index c) < length (singleAcks c))%nat ->
  buffered c = Some ids ->
  exists c1,
    serve (timedAckGroupingTracker options c true) (Add id) =
      Ok (timedAckGroupingTracker options c1 true, None) /\
    index c1 = S (index c) /\
    length (singleAcks c1) = length (singleAcks c) /\
    buffered c1 = Some (ids ++ [id]) /\
    pendingAcks c1 = markAcked (pendingAcks c) id /\
    lastCumulativeAck c1 = lastCumulativeAck c /\
    acked c1 = acked c.
Proof.
  intros Hi Hb.
  destruct (addAndCheckIfFull_ok c id ids ltac:(lia) Hb)
    as (c1 & Ha & Hidx & Hl1 & Hb1 & Hp & Hw & _ & Hlog).
  exists c1. cbn [serve].
  destruct (Nat.eqb_spec (S (index c)) (length (singleAcks c))); [lia|].
  rewrite Ha. simpl. repeat split; auto.
Qed.

(** The [add] that fills the buffer flushes it. *)
Lemma serve_Add_full options c id ids :
  S (index c) = length (singleAcks c) ->
  buffered c = Some ids ->
  exists c2,
    serve (timedAckGroupingTracker options c true) (Add id) =
      Ok (timedAckGroupingTracker options c2 true, None) /\
    index c2 = 0%nat /\
    length (singleAcks c2) = length (singleAcks c) /\
    pendingAcks c2 =
      foldl flushEntry (markAcked (pendingAcks c) id) (ids ++ [id]) /\
    lastCumulativeAck c2 = lastCumulativeAck c /\
    acked c2 = acked c ++ map IndividualAck (ids ++ [id]).
Proof.
  intros Hi Hb.
  destruct (addAndCheckIfFull_ok c id ids ltac:(lia) Hb)
    as (c1 & Ha & Hidx & Hl1 & Hb1 & Hp & Hw & _ & Hlog).
  destruct (flushIndividualAcks_ok c1 _ ltac:(lia) Hb1)
    as (c2 & Hf & H0 & Hs & Hp2 & Hl & _ & Hlog2).
  exists c2. cbn [serve].
  destruct (Nat.eqb_spec (S (index c)) (length (singleAcks c))); [|lia].
  rewrite Ha. simpl. rewrite Hf. simpl.
  split; [reflexivity|]. split; [exact H0|].
  split; [now rewrite Hs|]. split; [now rewrite Hp2, Hp|].
  split; [now rewrite Hl|]. now rewrite Hlog2, Hlog.
Qed.

Lemma run_Adds_room options ids : forall c pre,
  (index c + length ids < length (singleAcks c))%nat ->
  buffered c = Some pre ->
  exists c',
    run (timedAckGroupingTracker options c true) (map Add ids) =
      Ok (timedAckGroupingTracker options c' true) /\
    index c' = (index c + length ids)%nat /\
    length (singleAcks c') = length (singleAcks c) /\
    buffered c' = Some (pre ++ ids) /\
    pendingAcks c' = foldl markAcked (pendingAcks c) ids /\
    lastCumulativeAck c' = lastCumulativeAck c /\
    acked c' = acked c.
Proof.
  induction ids as [|id ids IH]; intros c pre Hi Hb; cbn [length map run] in *.
  - exists c. rewrite app_nil_r, Nat.add_0_r. repeat split; auto.
  - destruct (serve_Add_room options c id pre ltac:(lia) Hb)
      as (c1 & Hs & Hidx & Hl1 & Hb1 & Hp & Hw & Hlog).
    destruct (IH c1 _ ltac:(lia) Hb1) as (c' & Hrun & Hidx' & Hl' & Hb' & Hp' & Hw' & Hlog').
    exists c'. rewrite Hs. simpl. split; [exact Hrun|].
    rewrite <- app_assoc in Hb'. simpl in Hb'. simpl.
    repeat split; try congruence; lia.
Qed.

(** *** Batches *)

Lemma markAcked_unseen_batch pending id :
  pending !! messageIDHash id = None ->
  messageIDIsBatch id = true ->
  markAcked pending id =
    <[messageIDHash id :=
        Some (BitSet.Clear (newAckSet (BatchSize id)) (BitSet.uint (BatchIdx id)))]>
      (<[messageIDHash id := Some (newAckSet (BatchSize id))]> pending).
Proof. intros Hp Hb. unfold markAcked. now rewrite Hp, Hb. Qed.

Lemma markAcked_seen pending id b :
  pending !! messageIDHash id = Some (Some b) ->
  markAcked pending id =
    <[messageIDHash id := Some (BitSet.Clear b (BitSet.uint (BatchIdx id)))]> pending.
Proof. intros Hp. unfold markAcked. now rewrite Hp. Qed.

(** [isDuplicate] of a batched id above the watermark reads the bit of the
    id in the entry of its position. *)
Lemma isDuplicate_bit c id b :
  messageIDCompare (lastCumulativeAck c) id < 0 ->
  messageIDIsBatch id = true ->
  pendingAcks c !! messageIDHash id = Some (Some b) ->
  isDuplicate c id = negb (BitSet.Test b (BitSet.uint (BatchIdx id))).
Proof.
  intros Hw Hb Hp. unfold isDuplicate. rewrite Hp, Hb.
  destruct (Z.leb_spec 0 (messageIDCompare (lastCumulativeAck c) id)); [lia|].
  reflexivity.
Qed.

Lemma isDuplicate_unseen c id :
  messageIDCompare (lastCumulativeAck c) id < 0 ->
  pendingAcks c !! messageIDHash id = None ->
  isDuplicate c id = false.
Proof.
  intros Hw Hp. unfold isDuplicate. rewrite Hp.
  destruct (Z.leb_spec 0 (messageIDCompare (lastCumulativeAck c) id)); [lia|].
  reflexivity.
Qed.

Lemma markAcked_first_of_batch pending id :
  pending !! messageIDHash id = None ->
  messageIDIsBatch id = true ->
  markAcked pending id !! messageIDHash id =
    Some (Some (BitSet.Clear (newAckSet (BatchSize id)) (BitSet.uint (BatchIdx id)))).
Proof.
  intros Hp Hb. rewrite markAcked_unseen_batch by assumption.
  apply lookup_insert_eq.
Qed.

Lemma markAcked_next_of_batch pending id b :
  pending !! messageIDHash id = Some (Some b) ->
  markAcked pending id !! messageIDHash id =
    Some (Some (BitSet.Clear b (BitSet.uint (BatchIdx id)))).
Proof.
  intros Hp. rewrite (markAcked_seen _ _ b) by assumption.
  apply lookup_insert_eq.
Qed.

(** C5, as amended.  Take a running grouped tracker, a batch of size 3 at
    a position that has no entry in the pending-ack index and lies above
    the watermark, and room in the buffer for three ids, so that no flush
    intervenes.  After [add] for the batch indices 0 and 2, [isDuplicate]
    is false for index 1 and true for indices 0 and 2.  After [add] for
    index 1 the entry of the position is still in the index, with all of
    its bits cleared, and [isDuplicate] is true for the three indices; the
    entry leaves the index at the next flush of the individual acks. *)
Theorem batch_entry_kept_until_flush : forall options c i0 i1 i2,
  (index c + 3 < length (singleAcks c))%nat ->
  is_Some (buffered c) ->
  messageIDHash i1 = messageIDHash i0 ->
  messageIDHash i2 = messageIDHash i0 ->
  messageIDIsBatch i0 = true ->
  messageIDIsBatch i1 = true ->
  messageIDIsBatch i2 = true ->
  BatchSize i0 = 3 ->
  BatchIdx i0 = 0 -> BatchIdx i1 = 1 -> BatchIdx i2 = 2 ->
  pendingAcks c !! messageIDHash i0 = None ->
  messageIDCompare (lastCumulativeAck c) i0 < 0 ->
  messageIDCompare (lastCumulativeAck c) i1 < 0 ->
  messageIDCompare (lastCumulativeAck c) i2 < 0 ->
  exists c2,
    run (timedAckGroupingTracker options c true) [Add i0; Add i2] =
      Ok (timedAckGroupingTracker options c2 true) /\
    answer (timedAckGroupingTracker options c2 true) i1 = Some false /\
    answer (timedAckGroupingTracker options c2 true) i0 = Some true /\
    answer (timedAckGroupingTracker options c2 true) i2 = Some true /\
    exists c3,
      run (timedAckGroupingTracker options c2 true) [Add i1] =
        Ok (timedAckGroupingTracker options c3 true) /\
      pendingAcks c3 !! messageIDHash i0 = Some (Some [false; false; false]) /\
      answer (timedAckGroupingTracker options c3 true) i0 = Some true /\
      answer (timedAckGroupingTracker options c3 true) i1 = Some true /\
      answer (timedAckGroupingTracker options c3 true) i2 = Some true /\
      exists c4,
        run (timedAckGroupingTracker options c3 true) [Flush] =
          Ok (timedAckGroupingTracker options c4 true) /\
        pendingAcks c4 !! messageIDHash i0 = None.
Proof.
  intros options c i0 i1 i2 Hroom [pre Hb] Hh1 Hh2 Hb0 Hb1 Hb2 Hsize
         Hx0 Hx1 Hx2 Hnone Hw0 Hw1 Hw2.
  destruct (run_Adds_room options [i0; i2] c pre ltac:(simpl; lia) Hb)
    as (c2 & Hrun2 & Hidx2 & Hl2 & Hbuf2 & Hp2 & Hlast2 & _).
  simpl in Hidx2, Hp2.
  assert (P2 : pendingAcks c2 !! messageIDHash i0 =
               Some (Some [false; true; false])).
  { assert (P1 : markAcked (pendingAcks c) i0 !! messageIDHash i2 =
                 Some (Some [false; true; true])).
    { rewrite Hh2, markAcked_first_of_batch by assumption.
      now rewrite Hsize, Hx0. }
    rewrite Hp2, <- Hh2.
    rewrite (markAcked_next_of_batch _ _ _ P1), Hx2. reflexivity. }
  destruct (run_Adds_room options [i1] c2 _ ltac:(simpl; lia) Hbuf2)
    as (c3 & Hrun3 & Hidx3 & Hl3 & Hbuf3 & Hp3 & Hlast3 & _).
  simpl in Hidx3, Hp3.
  assert (P3 : pendingAcks c3 !! messageIDHash i0 =
               Some (Some [false; false; false])).
  { rewrite <- Hh1 in P2. rewrite Hp3, <- Hh1.
    rewrite (markAcked_next_of_batch _ _ _ P2), Hx1. reflexivity. }
  destruct (flush_ok c3 _ ltac:(lia) Hbuf3) as (c4 & Hf & _ & _ & Hp4 & _).
  exists c2. split; [exact Hrun2|].
  unfold answer; cbn [serve].
  rewrite (isDuplicate_bit c2 i1 [false; true; false]), Hx1
    by (rewrite ?Hh1; congruence).
  rewrite (isDuplicate_bit c2 i0 [false; true; false]), Hx0 by congruence.
  rewrite (isDuplicate_bit c2 i2 [false; true; false]), Hx2
    by (rewrite ?Hh2; congruence).
  do 3 (split; [reflexivity|]).
  exists c3. split; [exact Hrun3|]. split; [exact P3|].
  rewrite (isDuplicate_bit c3 i1 [false; false; false]), Hx1
    by (rewrite ?Hh1; congruence).
  rewrite (isDuplicate_bit c3 i0 [false; false; false]), Hx0 by congruence.
  rewrite (isDuplicate_bit c3 i2 [false; false; false]), Hx2
    by (rewrite ?Hh2; congruence).
  do 3 (split; [reflexivity|]).
  exists c4.
  cbn [run serve]. unfold serveFlush. rewrite Hf. simpl.
  split; [reflexivity|].
  rewrite Hp4. apply foldl_flushEntry_In.
  apply in_or_app. left. apply in_or_app. right. now left.
Qed.

Lemma Test_Clear (b : BitSet.BitSet) i : BitSet.Test (BitSet.Clear b i) i = false.
Proof.
  unfold BitSet.Test, BitSet.Clear.
  destruct (Nat.ltb_spec (Z.to_nat i) (length b)) as [Hlt|Hge].
  - now rewrite list_lookup_insert_eq.
  - now rewrite lookup_ge_None_2.
Qed.

(** C6. A flush of the individual acks leaves no entry in the pending-ack
    index for any id of the flushed buffer, whatever the entry was, a bit
    set with bits still set included.  So when one index of a batch is
    acknowledged (its bit cleared while other bits of the batch remain set)
    and the tracker is then flushed, [isDuplicate] for that index, which
    was true before the flush, is false after it. *)
Theorem flush_evicts_partial_batches :
  (forall c c' id,
     flushIndividualAcks c = Ok c' ->
     In (Some id) (take (index c) (singleAcks c)) ->
     pendingAcks c' !! messageIDHash id = None) /\
  (forall options id,
     1 < MaxSize options ->
     messageIDCompare EarliestMessageID id < 0 ->
     messageIDIsBatch id = true ->
     BitSet.None_ (BitSet.Clear (newAckSet (BatchSize id))
                     (BitSet.uint (BatchIdx id))) = false ->
     exists c1 b,
       run (newAckGroupingTracker (Some options)) [Add id] =
         Ok (timedAckGroupingTracker options c1 true) /\
       pendingAcks c1 !! messageIDHash id = Some (Some b) /\
       BitSet.None_ b = false /\
       answer (timedAckGroupingTracker options c1 true) id = Some true /\
       exists c2,
         run (timedAckGroupingTracker options c1 true) [Flush] =
           Ok (timedAckGroupingTracker options c2 true) /\
         pendingAcks c2 !! messageIDHash id = None /\
         answer (timedAckGroupingTracker options c2 true) id = Some false).
Proof.
  split.
  - intros c c' id Hf Hin. unfold flushIndividualAcks in Hf.
    destruct (Nat.ltb_spec 0 (index c)) as [Hpos|Hz].
    + destruct (index c <=? length (singleAcks c))%nat; [|discriminate].
      destruct (non_nil (take (index c) (singleAcks c))) as [ids|] eqn:Hids;
        [|discriminate].
      inversion Hf; subst; simpl.
      apply foldl_flushEntry_In. now apply (non_nil_In _ _ _ Hids).
    + assert (Hi0 : index c = 0%nat) by lia.
      rewrite Hi0 in Hin. destruct Hin.
  - intros options id Hsize Hw Hbatch Hpartial.
    destruct (newAckGroupingTracker_timed options Hsize) as (-> & [Hi [pre Hb]] & Hlen).
    assert (Hpre : buffered (newCachedAcks options) = Some []) by reflexivity.
    assert (Hroom : (index (newCachedAcks options) + length [id] <
                     length (singleAcks (newCachedAcks options)))%nat).
    { rewrite Hlen. simpl. lia. }
    destruct (run_Adds_room options [id] _ [] Hroom Hpre)
      as (c1 & Hrun1 & Hidx1 & Hl1 & Hbuf1 & Hp1 & Hlast1 & _).
    simpl in Hp1, Hbuf1, Hlast1.
    assert (P1 : pendingAcks c1 !! messageIDHash id =
                 Some (Some (BitSet.Clear (newAckSet (BatchSize id))
                               (BitSet.uint (BatchIdx id))))).
    { rewrite Hp1. apply markAcked_first_of_batch; [apply lookup_empty|exact Hbatch]. }
    destruct (flush_ok c1 _ ltac:(lia) Hbuf1)
      as (c2 & Hf & _ & _ & Hp2 & Hlast2 & _).
    assert (P2 : pendingAcks c2 !! messageIDHash id = None).
    { rewrite Hp2. apply foldl_flushEntry_In. now left. }
    eexists c1, _. split; [exact Hrun1|]. split; [exact P1|].
    split; [exact Hpartial|]. split.
    { unfold answer; cbn [serve].
      rewrite (isDuplicate_bit c1 id _ ltac:(now rewrite Hlast1) Hbatch P1).
      now rewrite Test_Clear. }
    exists c2. cbn [run serve]. unfold serveFlush. rewrite Hf. simpl.
    split; [reflexivity|]. split; [exact P2|].
    unfold answer; cbn [serve].
    rewrite isDuplicate_unseen; [reflexivity| |exact P2].
    now rewrite Hlast2, Hlast1.
Qed.

End WithMessageIDFuncs.

End TrackerProofs.

(** ** The tracker on the message ids of [SpecMessageID] *)

Module TrackerExamples.
Import Tracker TrackerProofs Samples.

(** [SpecMessageID.compare] orders the ids by ledger, entry and batch
    index. *)
Lemma spec_compare_nonneg a b :
  0 <= SpecMessageID.compare a b <->
  LedgerID b < LedgerID a \/
  (LedgerID a = LedgerID b /\
   (EntryID b < EntryID a \/
    (EntryID a = EntryID b /\ BatchIdx b <= BatchIdx a))).
Proof.
  unfold SpecMessageID.compare, SpecMessageID.cmp.
  destruct (Z.ltb_spec (LedgerID a) (LedgerID b));
    destruct (Z.ltb_spec (LedgerID b) (LedgerID a));
    destruct (Z.ltb_spec (EntryID a) (EntryID b));
    destruct (Z.ltb_spec (EntryID b) (EntryID a));
    destruct (Z.ltb_spec (BatchIdx a) (BatchIdx b));
    destruct (Z.ltb_spec (BatchIdx b) (BatchIdx a)); lia.
Qed.

Lemma spec_compare_nonpos a b :
  SpecMessageID.compare a b <= 0 <->
  LedgerID a < LedgerID b \/
  (LedgerID a = LedgerID b /\
   (EntryID a < EntryID b \/
    (EntryID a = EntryID b /\ BatchIdx a <= BatchIdx b))).
Proof.
  unfold SpecMessageID.compare, SpecMessageID.cmp.
  destruct (Z.ltb_spec (LedgerID a) (LedgerID b));
    destruct (Z.ltb_spec (LedgerID b) (LedgerID a));
    destruct (Z.ltb_spec (EntryID a) (EntryID b));
    destruct (Z.ltb_spec (EntryID b) (EntryID a));
    destruct (Z.ltb_spec (BatchIdx a) (BatchIdx b));
    destruct (Z.ltb_spec (BatchIdx b) (BatchIdx a)); lia.
Qed.

Lemma spec_compare_swap a b :
  SpecMessageID.compare a b <= 0 -> 0 <= SpecMessageID.compare b a.
Proof. rewrite spec_compare_nonpos, spec_compare_nonneg. lia. Qed.

Lemma spec_compare_trans a b c :
  0 <= SpecMessageID.compare a b -> 0 <= SpecMessageID.compare b c ->
  0 <= SpecMessageID.compare a c.
Proof. rewrite !spec_compare_nonneg. lia. Qed.

Lemma isDuplicate_below_cumulative_witness :
  exists t,
    run (newAckGroupingTracker (Some options2))
        [AddCumulative (single 5); Add (single 9); AddCumulative (single 3)]
      = Ok t /\
    answer t (single 4) = Some true.
Proof.
  refine (proj1 (isDuplicate_below_cumulative (H := SpecMessageID.funcs)
                   spec_compare_swap spec_compare_trans options2
                   [AddCumulative (single 5); Add (single 9);
                    AddCumulative (single 3)]
                   (single 5) (single 4) _ _ _ _)).
  - reflexivity.
  - reflexivity.
  - simpl. tauto.
  - vm_compute. discriminate.
Defined.

Lemma batch_entry_kept_until_flush_witness :
  exists c2,
    run (newAckGroupingTracker (Some options10)) [Add (batched 0); Add (batched 2)] =
      Ok (timedAckGroupingTracker options10 c2 true) /\
    answer (timedAckGroupingTracker options10 c2 true) (batched 1) = Some false /\
    answer (timedAckGroupingTracker options10 c2 true) (batched 0) = Some true /\
    answer (timedAckGroupingTracker options10 c2 true) (batched 2) = Some true /\
    exists c3,
      run (timedAckGroupingTracker options10 c2 true) [Add (batched 1)] =
        Ok (timedAckGroupingTracker options10 c3 true) /\
      pendingAcks c3 !! messageIDHash (batched 0) =
        Some (Some [false; false; false]) /\
      answer (timedAckGroupingTracker options10 c3 true) (batched 0) = Some true /\
      answer (timedAckGroupingTracker options10 c3 true) (batched 1) = Some true /\
      answer (timedAckGroupingTracker options10 c3 true) (batched 2) = Some true /\
      exists c4,
        run (timedAckGroupingTracker options10 c3 true) [Flush] =
          Ok (timedAckGroupingTracker options10 c4 true) /\
        pendingAcks c4 !! messageIDHash (batched 0) = None.
Proof.
  refine (batch_entry_kept_until_flush (H := SpecMessageID.funcs) options10
            (newCachedAcks options10) (batched 0) (batched 1) (batched 2)
            _ _ _ _ _ _ _ _ _ _ _ _ _ _ _).
  - simpl. lia.
  - eexists. reflexivity.
  - reflexivity.
  - reflexivity.
  - reflexivity.
  - reflexivity.
  - reflexivity.
  - reflexivity.
  - reflexivity.
  - reflexivity.
  - reflexivity.
  - reflexivity.
  - reflexivity.
  - reflexivity.
  - reflexivity.
Defined.

(** C5 as stated fails: after the third [add] the entry of the batch is
    still in the pending-ack index. *)
Lemma batch_entry_evicted_counterexample :
  exists c3,
    run (newAckGroupingTracker (Some options10))
        [Add (batched 0); Add (batched 2); Add (batched 1)] =
      Ok (timedAckGroupingTracker options10 c3 true) /\
    index c3 = 3%nat /\
    pendingAcks c3 !! messageIDHash (batched 1) = Some (Some [false; false; false]) /\
    pendingAcks c3 !! messageIDHash (batched 1) <> None.
Proof.
  eexists. split; [vm_compute; reflexivity|].
  split; [reflexivity|]. split; [reflexivity|]. discriminate.
Qed.

Lemma flush_evicts_partial_batches_witness :
  exists c1 b,
    run (newAckGroupingTracker (Some options2)) [Add (batched 0)] =
      Ok (timedAckGroupingTracker options2 c1 true) /\
    pendingAcks c1 !! messageIDHash (batched 0) = Some (Some b) /\
    BitSet.None_ b = false /\
    answer (timedAckGroupingTracker options2 c1 true) (batched 0) = Some true /\
    exists c2,
      run (timedAckGroupingTracker options2 c1 true) [Flush] =
        Ok (timedAckGroupingTracker options2 c2 true) /\
      pendingAcks c2 !! messageIDHash (batched 0) = None /\
      answer (timedAckGroupingTracker options2 c2 true) (batched 0) = Some false.
Proof.
  refine (proj2 (flush_evicts_partial_batches (H := SpecMessageID.funcs))
            options2 (batched 0) _ _ _ _).
  - reflexivity.
  - reflexivity.
  - reflexivity.
  - reflexivity.
Defined.



Lemma isDuplicate_earliest_when_clean_witness :
  answer (newAckGroupingTracker (Some options2)) EarliestMessageID = Some true /\
  (forall rs t,
     run (newAckGroupingTracker (Some options2)) rs = Ok t ->
     is_running t = true ->
     exists t', run t [FlushAndClean] = Ok t' /\
                is_running t' = true /\
                answer t' EarliestMessageID = Some true).
Proof.
  refine (isDuplicate_earliest_when_clean (H := SpecMessageID.funcs) options2 _ _).
  - reflexivity.
  - vm_compute. discriminate.
Defined.

End TrackerExamples.

(** ** More on the memory limit controller *)

Module MemoryLimitMore.
Import MemoryLimit Blocking Int64Facts MemoryLimitProofs.

Lemma wrap_wrap_add a b : Int64.wrap (Int64.wrap a + b) = Int64.wrap (a + b).
Proof.
  destruct (wrap_shift a) as [k1 H1].
  destruct (wrap_shift (Int64.wrap a + b)) as [k2 H2].
  destruct (wrap_shift (a + b)) as [k3 H3].
  apply (in_range_unique _ _ (k1 + k2 - k3)); auto using wrap_in_range.
  lia.
Qed.

(** X1. The counter is the sum of what was reserved less what was released,
    whatever wrapped on the way. *)
Theorem usage_accounts_for_every_call : forall cs m,
  Int64.in_range (currentUsage m) ->
  CurrentUsage (fst (run m cs)) =
    Int64.wrap (currentUsage m + total (snd (run m cs)) - released cs).
Proof.
  unfold CurrentUsage, LoadInt64.
  induction cs as [|c cs IH]; intros m Hr.
  - unfold total; simpl.
    replace (currentUsage m + 0 - 0) with (currentUsage m) by lia.
    now rewrite wrap_id.
  - cbn [run released]. destruct c as [size|size]; cbn [exec].
    + rewrite TryReserveMemory_eq.
      destruct (IsMemoryLimited m && (limit m <? currentUsage m)).
      * specialize (IH m Hr). destruct (run m cs) as [m2 rs]; simpl in *.
        exact IH.
      * specialize (IH (store m (Int64.add (currentUsage m) size))
                      (wrap_in_range _)).
        destruct (run (store m (Int64.add (currentUsage m) size)) cs)
          as [m2 rs]; simpl in *.
        rewrite IH. unfold Int64.add, total; simpl.
        replace (Int64.wrap (currentUsage m + size) + foldr Z.add 0 rs
                 - released cs)
          with (Int64.wrap (currentUsage m + size)
                + (foldr Z.add 0 rs - released cs)) by lia.
        rewrite wrap_wrap_add. f_equal. lia.
    + assert (Hr1 : Int64.in_range (currentUsage (ReleaseMemory m size)))
        by (rewrite ReleaseMemory_usage; apply wrap_in_range).
      specialize (IH (ReleaseMemory m size) Hr1).
      destruct (run (ReleaseMemory m size) cs) as [m2 rs]; simpl in *.
      rewrite IH, ReleaseMemory_usage.
      replace (Int64.wrap (currentUsage m - size) + total rs - released cs)
        with (Int64.wrap (currentUsage m - size)
              + (total rs - released cs)) by lia.
      rewrite wrap_wrap_add. f_equal. lia.
Qed.

Lemma usage_accounts_for_every_call_witness :
  let m := NewMemoryLimitController 10 in
  let cs := [CallTryReserve 8; CallTryReserve 7; CallTryReserve 1;
             CallRelease 7; CallTryReserve 4] in
  snd (run m cs) = [8; 7; 4] /\
  CurrentUsage (fst (run m cs)) =
    Int64.wrap (currentUsage m + total (snd (run m cs)) - released cs).
Proof.
  split; [reflexivity|].
  apply (usage_accounts_for_every_call
           [CallTryReserve 8; CallTryReserve 7; CallTryReserve 1;
            CallRelease 7; CallTryReserve 4] (NewMemoryLimitController 10)).
  unfold Int64.in_range, Int64.min_int, Int64.max_int; simpl; lia.
Defined.

Lemma wrap_add_sub u size :
  Int64.in_range u -> Int64.wrap (Int64.wrap (u + size) - size) = u.
Proof.
  intros Hu.
  replace (Int64.wrap (u + size) - size)
    with (Int64.wrap (u + size) + - size) by lia.
  rewrite wrap_wrap_add. rewrite <- (wrap_id u) at 2 by exact Hu.
  f_equal. lia.
Qed.

(** X2. Releasing what was just reserved gives the usage back, to the unit,
    whether the reservation was forced or admitted. *)
Theorem release_undoes_reserve : forall m size,
  Int64.in_range (currentUsage m) ->
  currentUsage (ReleaseMemory (ForceReserveMemory m size) size) =
    currentUsage m /\
  (snd (TryReserveMemory m size) = true ->
   currentUsage (ReleaseMemory (fst (TryReserveMemory m size)) size) =
     currentUsage m).
Proof.
  intros m size Hr. rewrite !ReleaseMemory_usage. split.
  - simpl. unfold Int64.add. now apply wrap_add_sub.
  - rewrite TryReserveMemory_eq.
    destruct (IsMemoryLimited m && (limit m <? currentUsage m)); simpl;
      [discriminate|].
    intros _. unfold Int64.add. now apply wrap_add_sub.
Qed.

Lemma release_undoes_reserve_witness :
  let m := {| limit := 10; chCond := 0; currentUsage := 9 |} in
  currentUsage (ForceReserveMemory m 100) = 109 /\
  currentUsage (ReleaseMemory (ForceReserveMemory m 100) 100) = currentUsage m.
Proof.
  split; [reflexivity|].
  refine (proj1 (release_undoes_reserve
                   {| limit := 10; chCond := 0; currentUsage := 9 |} 100 _)).
  unfold Int64.in_range, Int64.min_int, Int64.max_int; simpl; lia.
Defined.

Lemma TryReserveMemory_under_unlimited env : forall m size,
  limit m <= 0 -> snd (TryReserveMemory_under env m size) = true.
Proof.
  induction env as [|v env IH]; intros m size Hl; simpl;
    unfold IsMemoryLimited, LoadInt64;
    destruct (Z.ltb_spec 0 (limit m)); try lia; simpl.
  - now rewrite CompareAndSwapInt64_same.
  - unfold CompareAndSwapInt64; simpl.
    destruct (v =? currentUsage m); simpl; [reflexivity|].
    now apply IH.
Qed.

(** X3. A controller whose limit is not positive refuses nobody: the
    non-blocking reservation succeeds whatever the other goroutines do,
    and the blocking one returns true on its first attempt, without
    waiting; when nobody interferes with that attempt the usage is
    advanced by [size]. *)
Theorem unlimited_never_refuses : forall m size,
  limit m <= 0 ->
  (forall env, snd (TryReserveMemory_under env m size) = true) /\
  (forall fast turns,
     ReserveMemory fast turns m size =
       Ok (fst (TryReserveMemory_under fast m size), true)) /\
  (forall turns,
     ReserveMemory [] turns m size =
       Ok (store m (Int64.add (currentUsage m) size), true)).
Proof.
  intros m size Hl.
  assert (Hfast : forall fast turns,
            ReserveMemory fast turns m size =
              Ok (fst (TryReserveMemory_under fast m size), true)).
  { intros fast turns. unfold ReserveMemory.
    pose proof (TryReserveMemory_under_unlimited fast m size Hl) as Hok.
    destruct (TryReserveMemory_under fast m size) as [m1 ok]; simpl in *.
    now rewrite Hok. }
  split; [intros env; now apply TryReserveMemory_under_unlimited|].
  split; [exact Hfast|].
  intros turns. rewrite Hfast.
  change (TryReserveMemory_under [] m size) with (TryReserveMemory m size).
  rewrite TryReserveMemory_eq. unfold IsMemoryLimited.
  destruct (Z.ltb_spec 0 (limit m)); [lia|]. reflexivity.
Qed.

Lemma unlimited_never_refuses_witness :
  let m := {| limit := 0; chCond := 0; currentUsage := 1000 |} in
  snd (TryReserveMemory_under [5; 7] m 50) = true /\
  ReserveMemory [] [] m 50 = Ok (store m 1050, true).
Proof.
  pose proof (unlimited_never_refuses
                {| limit := 0; chCond := 0; currentUsage := 1000 |} 50
                ltac:(simpl; lia)) as (Htry & _ & Hres).
  split; [apply Htry|apply Hres].
Defined.

(** X4. With the limit enforced, [ReleaseMemory] broadcasts exactly when
    it reopens the gate of [TryReserveMemory]: the count of broadcasts
    goes up, by one, if and only if a reservation made before the release
    is refused and a reservation made after it is admitted (whatever
    their sizes); otherwise the count stays as it is.  This is said of
    the calls run one after the other; it says nothing of a goroutine
    that is between a refused attempt and its wait. *)
Theorem release_broadcasts_iff_gate_reopens : forall m freed size size',
  Int64.in_range (currentUsage m) ->
  0 < limit m ->
  (chCond (ReleaseMemory m freed) = S (chCond m) <->
     snd (TryReserveMemory m size) = false /\
     snd (TryReserveMemory (ReleaseMemory m freed) size') = true) /\
  (chCond (ReleaseMemory m freed) = S (chCond m) \/
   chCond (ReleaseMemory m freed) = chCond m).
Proof.
  intros m freed size size' Hr Hlim.
  rewrite !TryReserveMemory_eq. unfold IsMemoryLimited.
  rewrite ReleaseMemory_limit, (ReleaseMemory_chCond m freed Hr).
  destruct (gate_closed_spec (limit m) (currentUsage m)) as [Hb|Hb];
    destruct (gate_closed_spec (limit m) (currentUsage (ReleaseMemory m freed)))
      as [Ha|Ha];
    destruct (Z.ltb_spec (limit m) (currentUsage m));
    destruct (Z.leb_spec (currentUsage (ReleaseMemory m freed)) (limit m));
    simpl; try lia;
    (split; [split; [intros E|intros [E1 E2]]; try discriminate; try lia; auto
            |auto]).
Qed.

Lemma release_broadcasts_iff_gate_reopens_witness :
  let m := {| limit := 10; chCond := 0; currentUsage := 14 |} in
  snd (TryReserveMemory m 1) = false /\
  snd (TryReserveMemory (ReleaseMemory m 6) 500) = true /\
  chCond (ReleaseMemory m 6) = 1%nat /\
  chCond (ReleaseMemory m 2) = 0%nat /\
  (chCond (ReleaseMemory m 6) = S (chCond m) <->
     snd (TryReserveMemory m 1) = false /\
     snd (TryReserveMemory (ReleaseMemory m 6) 500) = true).
Proof.
  do 4 (split; [reflexivity|]).
  refine (proj1 (release_broadcasts_iff_gate_reopens
                   {| limit := 10; chCond := 0; currentUsage := 14 |}
                   6 1 500 _ _)).
  - unfold Int64.in_range, Int64.min_int, Int64.max_int; simpl; lia.
  - simpl; lia.
Defined.

(** *** The blocking reservation *)







Lemma reserveLoop_returns turns : forall m size,
  (exists t, In t turns /\ woken t = false) ->
  exists r, reserveLoop turns m size = Ok r.
Proof.
  induction turns as [|t turns IH]; intros m size (t0 & Hin & Hw);
    [destruct Hin|].
  cbn [reserveLoop].
  destruct (TryReserveMemory_under (raced t) (store m (seen t)) size)
    as [m1 [|]]; [eauto|].
  destruct (woken t) eqn:Hwt; [|eauto].
  apply IH. destruct Hin as [->|Hin]; [congruence|eauto].
Qed.

(** X6. A context that is done at some point unblocks the caller: the call
    returns, it does not wait for ever. *)
Theorem ReserveMemory_returns_when_cancelled : forall fast turns m size,
  (exists t, In t turns /\ woken t = false) ->
  exists r, ReserveMemory fast turns m size = Ok r.
Proof.
  intros fast turns m size Hdone. unfold ReserveMemory.
  destruct (TryReserveMemory_under fast m size) as [m1 [|]]; [eauto|].
  now apply reserveLoop_returns.
Qed.

Lemma ReserveMemory_returns_when_cancelled_witness :
  let m := {| limit := 10; chCond := 0; currentUsage := 14 |} in
  let busy := {| seen := 20; raced := []; woken := true |} in
  let done := {| seen := 15; raced := []; woken := false |} in
  ReserveMemory [] [busy] m 3 = Stuck /\
  exists r, ReserveMemory [] [busy; done] m 3 = Ok r.
Proof.
  split; [reflexivity|].
  apply (ReserveMemory_returns_when_cancelled []
           [ {| seen := 20; raced := []; woken := true |};
             {| seen := 15; raced := []; woken := false |} ]
           {| limit := 10; chCond := 0; currentUsage := 14 |} 3).
  eexists. split; [right; left; reflexivity|reflexivity].
Defined.

End MemoryLimitMore.

(** ** More on the ack grouping tracker *)

Module TrackerMore.
Import Tracker TrackerViews TrackerProofs.

Lemma individualAcks_app l1 l2 :
  individualAcks (l1 ++ l2) = individualAcks l1 ++ individualAcks l2.
Proof. apply omap_app. Qed.

Lemma cumulativeAcks_app l1 l2 :
  cumulativeAcks (l1 ++ l2) = cumulativeAcks l1 ++ cumulativeAcks l2.
Proof. apply omap_app. Qed.

Lemma individualAcks_map ids : individualAcks (map IndividualAck ids) = ids.
Proof. induction ids as [|i ids IH]; simpl; [reflexivity|]. now f_equal. Qed.

Lemma cumulativeAcks_map ids : cumulativeAcks (map IndividualAck ids) = [].
Proof. induction ids as [|i ids IH]; simpl; auto. Qed.

Lemma added_app rs1 rs2 : added (rs1 ++ rs2) = added rs1 ++ added rs2.
Proof. apply omap_app. Qed.

Lemma forwarded_app rs1 rs2 :
  forwarded (rs1 ++ rs2) = forwarded rs1 ++ forwarded rs2.
Proof. apply omap_app. Qed.

Lemma individualAcks_forwarded rs : individualAcks (forwarded rs) = added rs.
Proof.
  induction rs as [|r rs IH]; [reflexivity|].
  destruct r; simpl; auto. now f_equal.
Qed.

Section WithMessageIDFuncs.

Context `{MessageIDFuncs}.

(** *** The immediate tracker *)

Lemma run_immediate rs : forall log,
  (forall r, In r rs -> r <> Tick) ->
  run (immediateAckGroupingTracker log) rs =
    Ok (immediateAckGroupingTracker (log ++ forwarded rs)).
Proof.
  induction rs as [|r rs IH]; intros log Hrs.
  - simpl. now rewrite app_nil_r.
  - assert (Hrest : forall r', In r' rs -> r' <> Tick)
      by (intros r' Hr'; apply Hrs; now right).
    assert (Hr : r <> Tick) by (apply Hrs; now left).
    change (r :: rs) with ([r] ++ rs) at 2.
    rewrite forwarded_app, app_assoc.
    destruct r; cbn [run serve mbind result_bind]; try congruence;
      rewrite IH by exact Hrest; simpl; unfold ackIndividual, ackCumulative;
      rewrite ?app_nil_r; reflexivity.
Qed.

(** *** Flushing twice *)

Lemma flushIndividualAcks_index c c1 :
  flushIndividualAcks c = Ok c1 -> index c1 = 0%nat.
Proof.
  unfold flushIndividualAcks.
  destruct (Nat.ltb_spec 0 (index c)) as [Hpos|Hz].
  - destruct (index c <=? length (singleAcks c))%nat; [|discriminate].
    destruct (non_nil _); [|discriminate].
    intros Hc; inversion Hc; reflexivity.
  - intros Hc; inversion Hc; subst. lia.
Qed.

Lemma flushCumulativeAck_required c :
  cumulativeAckRequired (flushCumulativeAck c) = false.
Proof.
  unfold flushCumulativeAck.
  destruct (cumulativeAckRequired c) eqn:E; [reflexivity|exact E].
Qed.

Lemma flush_fixpoint c c1 : flush c = Ok c1 -> flush c1 = Ok c1.
Proof.
  unfold flush. destruct (flushIndividualAcks c) as [c0| |] eqn:Hf;
    simpl; try discriminate.
  intros Hc; inversion Hc; subst; clear Hc.
  pose proof (flushIndividualAcks_index _ _ Hf) as Hi.
  pose proof (flushCumulativeAck_required c0) as Hreq.
  destruct (flushCumulativeAck_fields c0) as (Hidx & _).
  unfold flushIndividualAcks. rewrite Hidx, Hi. simpl.
  unfold flushCumulativeAck at 1. now rewrite Hreq.
Qed.

(** X14. A flush that follows a flush does nothing: it calls no callback and
    leaves the tracker as it is. *)
Theorem flush_twice_is_flush_once : forall t t1,
  run t [Flush] = Ok t1 -> run t1 [Flush] = Ok t1.
Proof.
  intros t t1 Hrun. destruct t as [log|options c [|]]; cbn [run serve] in Hrun.
  - inversion Hrun; subst. reflexivity.
  - unfold serveFlush in Hrun.
    destruct (flush c) as [c1| |] eqn:Hf; try discriminate.
    simpl in Hrun. inversion Hrun; subst.
    cbn [run serve]. unfold serveFlush.
    rewrite (flush_fixpoint _ _ Hf). reflexivity.
  - discriminate.
Qed.

(** *** Every sequence of requests *)

Lemma serve_not_Panic t r : tracker_wf t -> serve t r <> Panic.
Proof.
  destruct t as [log|options c [|]]; simpl.
  - intros _. destruct r; discriminate.
  - intros [Hwf Hlen].
    destruct (decide (r = Tick /\ MaxTime options <= 0)) as [[-> Hle]|Hn].
    + simpl. destruct (Z.ltb_spec 0 (MaxTime options)); [lia|discriminate].
    + assert (Ht : r = Tick -> 0 < MaxTime options).
      { intros Hr. destruct (Z.lt_ge_cases 0 (MaxTime options)); [auto|].
        exfalso. apply Hn. split; [auto|lia]. }
      destruct (serve_timed options c r Hwf Hlen Ht) as (c' & reply & Hs & _).
      simpl in Hs. rewrite Hs. discriminate.
  - discriminate.
Qed.

Lemma run_not_Panic rs : forall t, tracker_wf t -> run t rs <> Panic.
Proof.
  induction rs as [|r rs IH]; intros t Hwf; cbn [run]; [discriminate|].
  pose proof (serve_not_Panic t r Hwf) as Hs.
  destruct (serve t r) as [[t1 reply]| |] eqn:E; simpl; try congruence.
  apply IH. eapply serve_wf; eauto.
Qed.

Lemma run_served rs : forall t,
  tracker_wf t -> is_running t = true ->
  (forall r, In r rs -> r <> Close /\ r <> Tick) ->
  exists t', run t rs = Ok t'.
Proof.
  induction rs as [|r rs IH]; intros t Hwf Hrunning Hrs; cbn [run]; [eauto|].
  assert (Hr : r <> Close /\ r <> Tick) by (apply Hrs; now left).
  assert (Hrest : forall r', In r' rs -> r' <> Close /\ r' <> Tick)
    by (intros r' Hr'; apply Hrs; now right).
  assert (Hstep : exists t1 reply,
            serve t r = Ok (t1, reply) /\ is_running t1 = true).
  { destruct t as [log|options c running].
    - destruct r; simpl; try (eexists _, _; split; reflexivity).
      tauto.
    - simpl in Hrunning. subst running. destruct Hwf as [Hwf Hlen].
      destruct (serve_timed options c r Hwf Hlen) as (c' & reply & Hs & _).
      { intros ->. tauto. }
      destruct (decide (r = Close)) as [->|_]; [tauto|].
      eexists _, _. split; [exact Hs|reflexivity]. }
  destruct Hstep as (t1 & reply & Hs & Hrun1). rewrite Hs. simpl.
  apply IH; auto. eapply serve_wf; eauto.
Qed.

(** X7. The tracker never panics: whatever is requested of a new tracker, in
    whatever order, no index leaves the buffer and no nil id is used.
    Between two requests the buffer has a free slot (its cursor is below
    [MaxSize]) and keeps its length.  A sequence without [close] and
    without ticks is served to its end. *)
Theorem tracker_never_panics : forall options rs,
  run (newAckGroupingTracker options) rs <> Panic /\
  (forall t, run (newAckGroupingTracker options) rs = Ok t -> tracker_wf t) /\
  ((forall r, In r rs -> r <> Close /\ r <> Tick) ->
   exists t, run (newAckGroupingTracker options) rs = Ok t).
Proof.
  intros options rs.
  pose proof (newAckGroupingTracker_wf options) as Hwf.
  split; [now apply run_not_Panic|].
  split; [intros t Hrun; eapply run_wf; eauto|].
  intros Hrs. apply run_served; auto.
  unfold newAckGroupingTracker. now destruct (_ <=? _).
Qed.

(** A property of the state of the loop that every served request
    maintains, along the history of requests, holds after every sequence. *)
Lemma run_timed_history (Q : list request -> cachedAcks -> Prop)
    (allowed : request -> Prop) options :
  (forall h c r c' b reply,
     wf c -> length (singleAcks c) = Z.to_nat (MaxSize options) ->
     allowed r -> Q h c ->
     serve (timedAckGroupingTracker options c true) r =
       Ok (timedAckGroupingTracker options c' b, reply) ->
     Q (h ++ [r]) c') ->
  forall rs h c b t,
    wf c -> length (singleAcks c) = Z.to_nat (MaxSize options) ->
    (forall r, In r rs -> allowed r) ->
    Q h c ->
    run (timedAckGroupingTracker options c b) rs = Ok t ->
    exists c' b', t = timedAckGroupingTracker options c' b' /\
                  wf c' /\ Q (h ++ rs) c'.
Proof.
  intros Hstep.
  induction rs as [|r rs IH]; intros h c b t Hwf Hlen Hrs HQ Hrun;
    cbn [run] in Hrun.
  - inversion Hrun; subst. exists c, b. rewrite app_nil_r. auto.
  - destruct (serve (timedAckGroupingTracker options c b) r)
      as [[t1 reply]| |] eqn:Hs; try discriminate.
    simpl in Hrun.
    destruct (serve_timed_shape _ _ _ _ _ _ Hs) as (c1 & b1 & ->).
    destruct b; [|discriminate].
    pose proof (serve_wf (timedAckGroupingTracker options c true) r _ _
                  (conj Hwf Hlen) Hs) as [Hwf1 Hlen1].
    assert (HQ1 : Q (h ++ [r]) c1).
    { exact (Hstep h c r c1 b1 reply Hwf Hlen
                   (Hrs r (or_introl eq_refl)) HQ Hs). }
    destruct (IH (h ++ [r]) c1 b1 t Hwf1 Hlen1
                 ltac:(intros r' Hr'; apply Hrs; now right) HQ1 Hrun)
      as (c' & b' & -> & Hwf' & HQ').
    exists c', b'. rewrite <- app_assoc in HQ'. auto.
Qed.

(** *** What each request does to the state *)

Lemma flush_detail c ids :
  (index c <= length (singleAcks c))%nat ->
  buffered c = Some ids ->
  exists c1,
    flush c = Ok c1 /\
    index c1 = 0%nat /\
    singleAcks c1 = singleAcks c /\
    pendingAcks c1 = foldl flushEntry (pendingAcks c) ids /\
    lastCumulativeAck c1 = lastCumulativeAck c /\
    cumulativeAckRequired c1 = false /\
    acked c1 =
      acked c ++ map IndividualAck ids ++
      (if cumulativeAckRequired c then [CumulativeAck (lastCumulativeAck c)]
       else []).
Proof.
  intros Hi Hb.
  destruct (flushIndividualAcks_ok c ids Hi Hb)
    as (c0 & Hf & Hidx & Hs & Hp & Hl & Hreq & Hlog).
  exists (flushCumulativeAck c0). unfold flush. rewrite Hf. simpl.
  split; [reflexivity|].
  destruct (flushCumulativeAck_fields c0) as (E1 & E2 & E3 & E4).
  rewrite E1, E2, E3, E4, flushCumulativeAck_required.
  repeat split; auto.
  unfold flushCumulativeAck. rewrite Hreq.
  destruct (cumulativeAckRequired c); simpl.
  - unfold ackCumulative. now rewrite Hlog, Hl, <- app_assoc.
  - now rewrite Hlog, app_nil_r.
Qed.

Lemma serve_flushes_inv options c r c' b reply :
  flushes r ->
  serve (timedAckGroupingTracker options c true) r =
    Ok (timedAckGroupingTracker options c' b, reply) ->
  exists c1, flush c = Ok c1 /\
             c' = (if decide (r = FlushAndClean) then clean c1 else c1) /\
             b = (if decide (r = Close) then false else true).
Proof.
  intros [-> | [-> | [-> | ->]]] Hs; cbn [serve] in Hs; unfold serveFlush in Hs;
    try (destruct (0 <? MaxTime options); try discriminate);
    destruct (flush c) as [c1| |]; simpl in Hs; try discriminate;
    inversion Hs; subst; eexists; (split; [reflexivity|split; reflexivity]).
Qed.

Lemma serve_Add_detail options c id ids :
  (index c < length (singleAcks c))%nat ->
  buffered c = Some ids ->
  exists c',
    serve (timedAckGroupingTracker options c true) (Add id) =
      Ok (timedAckGroupingTracker options c' true, None) /\
    lastCumulativeAck c' = lastCumulativeAck c /\
    cumulativeAckRequired c' = cumulativeAckRequired c /\
    if (S (index c) =? length (singleAcks c))%nat then
      index c' = 0%nat /\
      buffered c' = Some [] /\
      acked c' = acked c ++ map IndividualAck (ids ++ [id]) /\
      pendingAcks c' =
        foldl flushEntry (markAcked (pendingAcks c) id) (ids ++ [id])
    else
      index c' = S (index c) /\
      buffered c' = Some (ids ++ [id]) /\
      acked c' = acked c /\
      pendingAcks c' = markAcked (pendingAcks c) id.
Proof.
  intros Hi Hb.
  destruct (addAndCheckIfFull_ok c id ids Hi Hb)
    as (c1 & Ha & Hidx & Hl1 & Hb1 & Hp & Hw & Hreq & Hlog).
  cbn [serve].
  destruct (Nat.eqb_spec (S (index c)) (length (singleAcks c))) as [Hfull|Hroom];
    rewrite Ha; simpl.
  - destruct (flushIndividualAcks_ok c1 _ ltac:(lia) Hb1)
      as (c2 & Hf & H0 & Hs & Hp2 & Hl & Hreq2 & Hlog2).
    rewrite Hf. simpl. exists c2. split; [reflexivity|].
    split; [congruence|]. split; [congruence|].
    split; [exact H0|]. split; [unfold buffered; now rewrite H0|].
    split; congruence.
  - exists c1. split; [reflexivity|]. repeat split; auto.
Qed.

Lemma buffered_fields c c' :
  index c' = index c -> singleAcks c' = singleAcks c ->
  buffered c' = buffered c.
Proof. unfold buffered. now intros -> ->. Qed.

Lemma tryUpdateLastCumulativeAck_acked c id :
  acked (tryUpdateLastCumulativeAck c id) = acked c.
Proof.
  unfold tryUpdateLastCumulativeAck. now destruct (_ <? 0).
Qed.

Lemma flushCumulativeAck_acked c :
  acked (flushCumulativeAck c) =
  acked c ++ (if cumulativeAckRequired c
              then [CumulativeAck (lastCumulativeAck c)] else []).
Proof.
  unfold flushCumulativeAck. destruct (cumulativeAckRequired c); simpl;
    [reflexivity|now rewrite app_nil_r].
Qed.

Lemma serve_AddCumulative options c id :
  serve (timedAckGroupingTracker options c true) (AddCumulative id) =
  Ok (timedAckGroupingTracker options
        (if MaxTime options <=? 0
         then flushCumulativeAck (tryUpdateLastCumulativeAck c id)
         else tryUpdateLastCumulativeAck c id) true, None).
Proof. reflexivity. Qed.

Lemma request_kinds r :
  (exists id, r = Add id) \/ (exists id, r = AddCumulative id) \/
  (exists id, r = IsDuplicate id) \/ flushes r.
Proof. unfold flushes. destruct r; eauto 10. Qed.

(** *** No individual ack is lost *)

Lemma serve_conserved options h c r c' b reply :
  wf c -> length (singleAcks c) = Z.to_nat (MaxSize options) ->
  True -> conserved h c ->
  serve (timedAckGroupingTracker options c true) r =
    Ok (timedAckGroupingTracker options c' b, reply) ->
  conserved (h ++ [r]) c'.
Proof.
  intros [Hi _] Hlen _ (ids & Hb & Hcons) Hs. unfold conserved.
  rewrite added_app, <- Hcons.
  destruct (request_kinds r) as [[id ->]|[[id ->]|[[id ->]|Hfl]]].
  - destruct (serve_Add_detail options c id ids Hi Hb)
      as (c1 & Hs1 & _ & _ & Hcase).
    rewrite Hs1 in Hs. inversion Hs; subst c1.
    destruct (S (index c) =? length (singleAcks c))%nat;
      destruct Hcase as (_ & Hb' & Hlog & _); eexists; (split; [exact Hb'|]);
      rewrite Hlog; simpl.
    + now rewrite individualAcks_app, individualAcks_map, !app_nil_r, app_assoc.
    + now rewrite app_assoc.
  - rewrite serve_AddCumulative in Hs. inversion Hs; subst c'.
    destruct (tryUpdateLastCumulativeAck_fields c id) as (E1 & E2 & _).
    pose proof (tryUpdateLastCumulativeAck_acked c id) as E3.
    exists ids. simpl. rewrite app_nil_r.
    destruct (MaxTime options <=? 0).
    + destruct (flushCumulativeAck_fields (tryUpdateLastCumulativeAck c id))
        as (F1 & F2 & _).
      rewrite flushCumulativeAck_acked, individualAcks_app, E3.
      split; [rewrite <- Hb; apply buffered_fields; congruence|].
      destruct (cumulativeAckRequired _); simpl; now rewrite app_nil_r.
    + rewrite E3. split; [rewrite <- Hb; apply buffered_fields; congruence|].
      reflexivity.
  - cbn [serve] in Hs. inversion Hs; subst c'.
    exists ids. simpl. now rewrite app_nil_r.
  - destruct (serve_flushes_inv _ _ _ _ _ _ Hfl Hs) as (c1 & Hf & -> & _).
    destruct (flush_detail c ids ltac:(lia) Hb)
      as (c1' & Hf' & Hidx & Hsa & _ & _ & _ & Hlog).
    rewrite Hf' in Hf. inversion Hf; subst c1'.
    assert (Hadd : added [r] = []).
    { destruct Hfl as [-> | [-> | [-> | ->]]]; reflexivity. }
    rewrite Hadd, app_nil_r. exists [].
    split.
    + destruct (decide (r = FlushAndClean)); [reflexivity|].
      unfold buffered. now rewrite Hidx.
    + assert (Hacked : acked (if decide (r = FlushAndClean) then clean c1 else c1)
                       = acked c1) by (now destruct (decide _)).
      rewrite Hacked, Hlog, !individualAcks_app, individualAcks_map, app_nil_r.
      destruct (cumulativeAckRequired c); simpl; now rewrite app_nil_r.
Qed.

Lemma run_immediate_served rs : forall log t,
  run (immediateAckGroupingTracker log) rs = Ok t ->
  forall r, In r rs -> r <> Tick.
Proof.
  induction rs as [|r rs IH]; intros log t Hrun r' Hin; [destruct Hin|].
  cbn [run] in Hrun. destruct Hin as [<-|Hin].
  - intros ->. discriminate.
  - destruct r; simpl in Hrun; try discriminate; eapply IH; eauto.
Qed.

Lemma run_conserved options rs t :
  run (newAckGroupingTracker options) rs = Ok t ->
  individualAcks (calls t) ++ waiting t = added rs.
Proof.
  unfold newAckGroupingTracker.
  set (o := default defaultOptions options).
  destruct (Z.leb_spec (MaxSize o) 1) as [Hle|Hgt]; intros Hrun.
  - (* immediate *)
    pose proof (run_immediate_served rs _ _ Hrun) as Htick.
    rewrite run_immediate in Hrun by exact Htick.
    inversion Hrun; subst; simpl.
    now rewrite app_nil_r, individualAcks_forwarded.
  - destruct (newAckGroupingTracker_timed o Hgt) as (_ & Hwf & Hlen).
    assert (Hinit : conserved [] (newCachedAcks o))
      by (exists []; split; reflexivity).
    destruct (run_timed_history conserved (fun _ => True) o
                (serve_conserved o) rs [] (newCachedAcks o) true t Hwf Hlen
                (fun _ _ => I) Hinit Hrun)
      as (c' & b' & -> & _ & ids & Hb & Hcons).
    simpl. now rewrite Hb.
Qed.

(** X8. No individual ack is lost, repeated or reordered.  After any sequence
    of requests on a new tracker, the ids passed to the individual-ack
    callback so far, followed by the ids still waiting in the buffer, are
    exactly the ids given to [add], in the order of the calls. *)
Theorem individual_acks_are_conserved : forall options rs t,
  run (newAckGroupingTracker options) rs = Ok t ->
  individualAcks (calls t) ++ waiting t = added rs.
Proof. intros options rs t. apply run_conserved. Qed.

(** X9. [close] on the grouped tracker sends what is pending, and is final:
    when [close] returns, every id given to [add] before has been passed
    to the individual-ack callback, in order, the buffer is empty and no
    cumulative ack is due; and the loop has returned, so that no request
    made afterwards is ever served. *)
Theorem close_delivers_and_ends : forall options rs t,
  1 < MaxSize options ->
  run (newAckGroupingTracker (Some options)) (rs ++ [Close]) = Ok t ->
  individualAcks (calls t) = added rs /\
  waiting t = [] /\
  (exists c, t = timedAckGroupingTracker options c false /\
             index c = 0%nat /\ cumulativeAckRequired c = false) /\
  (forall r, serve t r = Stuck).
Proof.
  intros options rs t Hsize Hrun.
  pose proof (run_conserved _ _ _ Hrun) as Hcons.
  rewrite added_app in Hcons. simpl in Hcons. rewrite app_nil_r in Hcons.
  rewrite run_app in Hrun.
  destruct (run (newAckGroupingTracker (Some options)) rs) as [t0| |] eqn:Hrun0;
    try discriminate.
  pose proof (run_wf rs _ _ (newAckGroupingTracker_wf _) Hrun0) as Hwf0.
  destruct (newAckGroupingTracker_timed options Hsize) as (Hnew & _ & _).
  rewrite Hnew in Hrun0.
  destruct (run_timed_shape rs _ _ _ _ Hrun0) as (c0 & b0 & ->).
  cbn [mbind result_bind run] in Hrun.
  destruct b0; [|discriminate].
  destruct Hwf0 as [[Hi [ids Hb]] Hlen].
  destruct (serve (timedAckGroupingTracker options c0 true) Close)
    as [[t1 reply]| |] eqn:Hs; try discriminate.
  destruct (serve_timed_shape _ _ _ _ _ _ Hs) as (c1 & b1 & ->).
  injection Hrun as <-.
  destruct (serve_flushes_inv options c0 Close c1 b1 reply
              ltac:(unfold flushes; tauto) Hs) as (c1' & Hf & Hc1 & Hb1).
  simpl in Hc1, Hb1. subst c1' b1.
  destruct (flush_detail c0 ids ltac:(lia) Hb)
    as (c1' & Hf' & Hidx & _ & _ & _ & Hreq & _).
  rewrite Hf' in Hf. inversion Hf; subst c1'.
  assert (Hwait : waiting (timedAckGroupingTracker options c1 false) = []).
  { simpl. unfold buffered. now rewrite Hidx. }
  rewrite Hwait, app_nil_r in Hcons.
  split; [exact Hcons|]. split; [exact Hwait|].
  split; [eauto|]. intros r. reflexivity.
Qed.

(** *** The pending-ack index and the buffer *)

Lemma markAcked_keys pending id k :
  is_Some (markAcked pending id !! k) ->
  k = messageIDHash id \/ is_Some (pending !! k).
Proof.
  destruct (decide (k = messageIDHash id)) as [->|Hne]; [now left|].
  intros Hk. right. unfold markAcked in Hk.
  destruct (pending !! messageIDHash id) as [[b|]|];
    [| |destruct (messageIDIsBatch id)];
    rewrite ?lookup_insert_ne in Hk by congruence; exact Hk.
Qed.

Lemma foldl_flushEntry_covered ids pending :
  (forall k, is_Some (pending !! k) ->
     exists id, In id ids /\ messageIDHash id = k) ->
  foldl flushEntry pending ids = ∅.
Proof.
  intros Hcov. apply map_eq. intros k. rewrite lookup_empty.
  destruct (pending !! k) as [x|] eqn:Hk.
  - destruct (Hcov k ltac:(rewrite Hk; eauto)) as (id & Hin & <-).
    now apply foldl_flushEntry_In.
  - now apply foldl_flushEntry_None.
Qed.

Lemma index_covered_buffered c ids :
  buffered c = Some ids ->
  (index_covered c <->
   forall k, is_Some (pendingAcks c !! k) ->
     exists id, In id ids /\ messageIDHash id = k).
Proof.
  intros Hb. unfold index_covered.
  split; intros Hcov k Hk; destruct (Hcov k Hk) as (id & Hin & Hh);
    exists id; (split; [|exact Hh]);
    now apply (non_nil_In _ _ id Hb).
Qed.

Lemma index_covered_empty c : pendingAcks c = ∅ -> index_covered c.
Proof.
  intros He k Hk. rewrite He, lookup_empty in Hk. now destruct Hk.
Qed.

Lemma serve_index_covered options (h : list request) c r c' b reply :
  wf c -> length (singleAcks c) = Z.to_nat (MaxSize options) ->
  True -> index_covered c ->
  serve (timedAckGroupingTracker options c true) r =
    Ok (timedAckGroupingTracker options c' b, reply) ->
  index_covered c'.
Proof.
  intros [Hi [ids Hb]] Hlen _ Hcov Hs.
  rewrite (index_covered_buffered c ids Hb) in Hcov.
  destruct (request_kinds r) as [[id ->]|[[id ->]|[[id ->]|Hfl]]].
  - destruct (serve_Add_detail options c id ids Hi Hb)
      as (c1 & Hs1 & _ & _ & Hcase).
    rewrite Hs1 in Hs. inversion Hs; subst c1.
    assert (Hcov1 : forall k, is_Some (markAcked (pendingAcks c) id !! k) ->
              exists id', In id' (ids ++ [id]) /\ messageIDHash id' = k).
    { intros k Hk. destruct (markAcked_keys _ _ _ Hk) as [->|Hold].
      - exists id. split; [apply in_or_app; right; now left|reflexivity].
      - destruct (Hcov k Hold) as (id' & Hin & Hh).
        exists id'. split; [apply in_or_app; now left|exact Hh]. }
    destruct (S (index c) =? length (singleAcks c))%nat;
      destruct Hcase as (_ & Hb' & _ & Hp).
    + apply index_covered_empty. rewrite Hp.
      now apply foldl_flushEntry_covered.
    + apply (index_covered_buffered c' _ Hb'). now rewrite Hp.
  - rewrite serve_AddCumulative in Hs. inversion Hs; subst c'.
    destruct (tryUpdateLastCumulativeAck_fields c id) as (E1 & E2 & E3 & _).
    assert (Hsame : forall c1, index c1 = index c ->
              singleAcks c1 = singleAcks c -> pendingAcks c1 = pendingAcks c ->
              index_covered c1).
    { intros c1 F1 F2 F3.
      apply (index_covered_buffered c1 ids);
        [rewrite <- Hb; now apply buffered_fields|now rewrite F3]. }
    destruct (MaxTime options <=? 0).
    + destruct (flushCumulativeAck_fields (tryUpdateLastCumulativeAck c id))
        as (F1 & F2 & F3 & _).
      apply Hsame; congruence.
    + now apply Hsame.
  - cbn [serve] in Hs. inversion Hs; subst c'.
    now apply (index_covered_buffered c ids Hb).
  - destruct (serve_flushes_inv _ _ _ _ _ _ Hfl Hs) as (c1 & Hf & -> & _).
    destruct (flush_detail c ids ltac:(lia) Hb)
      as (c1' & Hf' & _ & _ & Hp & _).
    rewrite Hf' in Hf. inversion Hf; subst c1'.
    apply index_covered_empty.
    destruct (decide (r = FlushAndClean)); [reflexivity|].
    rewrite Hp. now apply foldl_flushEntry_covered.
Qed.

(** X10. The pending-ack index only remembers what is in the buffer.  In every
    state a new tracker can reach, each key of the index is the hash of an
    id that waits in the buffer; so when the buffer is empty, after a
    flush in particular, the index is empty, and [isDuplicate] is then
    decided by the watermark alone. *)
Theorem index_follows_buffer : forall options rs options' c b,
  run (newAckGroupingTracker options) rs =
    Ok (timedAckGroupingTracker options' c b) ->
  index_covered c /\
  (index c = 0%nat ->
   pendingAcks c = ∅ /\
   forall id, isDuplicate c id =
              (0 <=? messageIDCompare (lastCumulativeAck c) id)).
Proof.
  intros options rs options' c b Hrun.
  assert (Hcov : index_covered c).
  { unfold newAckGroupingTracker in Hrun.
    set (o := default defaultOptions options) in *.
    destruct (Z.leb_spec (MaxSize o) 1) as [Hle|Hgt].
    - pose proof (run_immediate_served rs _ _ Hrun) as Htick.
      rewrite run_immediate in Hrun by exact Htick. discriminate.
    - destruct (newAckGroupingTracker_timed o Hgt) as (_ & Hwf & Hlen).
      destruct (run_timed_history (fun _ => index_covered) (fun _ => True) o
                  (serve_index_covered o) rs [] (newCachedAcks o) true _
                  Hwf Hlen (fun _ _ => I)
                  (index_covered_empty (newCachedAcks o) eq_refl) Hrun)
        as (c' & b' & Heq & _ & Hcov).
      inversion Heq; subst. exact Hcov. }
  split; [exact Hcov|]. intros Hidx.
  assert (Hempty : pendingAcks c = ∅).
  { apply map_eq. intros k. rewrite lookup_empty.
    destruct (pendingAcks c !! k) as [x|] eqn:Hk; [|reflexivity].
    destruct (Hcov k ltac:(rewrite Hk; eauto)) as (id & Hin & _).
    rewrite Hidx in Hin. destruct Hin. }
  split; [exact Hempty|].
  intros id. unfold isDuplicate. rewrite Hempty, lookup_empty.
  now destruct (0 <=? _).
Qed.

(** *** The cumulative acks that are sent *)

Lemma ForallOrdPairs_snoc {A} (R : A -> A -> Prop) l a :
  ForallOrdPairs R l -> (forall x, In x l -> R x a) ->
  ForallOrdPairs R (l ++ [a]).
Proof.
  induction l as [|y l IH]; intros Hl Ha; simpl.
  - constructor; constructor.
  - inversion Hl as [|? ? Hy Hl']; subst. constructor.
    + apply List.Forall_app. split; [exact Hy|].
      constructor; [apply Ha; now left|constructor].
    + apply IH; [exact Hl'|]. intros x Hx. apply Ha. now right.
Qed.

Section Sorted.

Hypothesis order_swap : forall a b,
  messageIDCompare a b <= 0 -> 0 <= messageIDCompare b a.
Hypothesis order_trans : forall a b c,
  0 <= messageIDCompare a b -> 0 <= messageIDCompare b c ->
  0 <= messageIDCompare a c.

Lemma order_refl a : 0 <= messageIDCompare a a.
Proof.
  destruct (Z.le_gt_cases (messageIDCompare a a) 0); [auto|lia].
Qed.

(** A state that differs from a sorted one only in what the individual
    acks touch is sorted. *)
Lemma sorted_same c c' :
  cumulativeAcks (acked c') = cumulativeAcks (acked c) ->
  lastCumulativeAck c' = lastCumulativeAck c ->
  cumulativeAckRequired c' = cumulativeAckRequired c ->
  cumulative_sorted c -> cumulative_sorted c'.
Proof. unfold cumulative_sorted. now intros -> -> ->. Qed.

(** Sending the cumulative ack that is due keeps the calls sorted. *)
Lemma sorted_send c c' :
  cumulativeAcks (acked c') =
    cumulativeAcks (acked c) ++
    (if cumulativeAckRequired c then [lastCumulativeAck c] else []) ->
  lastCumulativeAck c' = lastCumulativeAck c ->
  cumulativeAckRequired c' = false ->
  cumulative_sorted c -> cumulative_sorted c'.
Proof.
  intros Hlog Hlast Hreq (Hle & Hlt & Hsorted).
  unfold cumulative_sorted. rewrite Hlog, Hlast, Hreq.
  destruct (cumulativeAckRequired c).
  - split; [|split; [discriminate|]].
    + intros x Hx. apply in_app_or in Hx as [Hx|[<-|[]]];
        [now apply Hle|apply order_refl].
    + apply ForallOrdPairs_snoc; [exact Hsorted|]. now apply Hlt.
  - rewrite app_nil_r. split; [exact Hle|]. split; [discriminate|exact Hsorted].
Qed.

Lemma sorted_tryUpdateLastCumulativeAck c id :
  cumulative_sorted c -> cumulative_sorted (tryUpdateLastCumulativeAck c id).
Proof.
  intros (Hle & Hlt & Hsorted). unfold tryUpdateLastCumulativeAck.
  destruct (Z.ltb_spec (messageIDCompare (lastCumulativeAck c) id) 0) as [Hadv|];
    [|now repeat split].
  assert (Hbelow : forall x, In x (cumulativeAcks (acked c)) ->
                             messageIDCompare x id < 0).
  { intros x Hx. destruct (Z.lt_ge_cases (messageIDCompare x id) 0) as [|Hge];
      [assumption|].
    pose proof (order_trans _ _ _ (Hle x Hx) Hge). lia. }
  unfold cumulative_sorted; simpl. split; [|split; [|exact Hsorted]].
  - intros x Hx. apply order_swap. specialize (Hbelow x Hx). lia.
  - intros _. exact Hbelow.
Qed.

Lemma serve_sorted options (h : list request) c r c' b reply :
  wf c -> length (singleAcks c) = Z.to_nat (MaxSize options) ->
  r <> FlushAndClean -> cumulative_sorted c ->
  serve (timedAckGroupingTracker options c true) r =
    Ok (timedAckGroupingTracker options c' b, reply) ->
  cumulative_sorted c'.
Proof.
  intros [Hi [ids Hb]] Hlen Hr Hsorted Hs.
  destruct (request_kinds r) as [[id ->]|[[id ->]|[[id ->]|Hfl]]].
  - destruct (serve_Add_detail options c id ids Hi Hb)
      as (c1 & Hs1 & Hlast & Hreq & Hcase).
    rewrite Hs1 in Hs. inversion Hs; subst c1.
    apply (sorted_same c); auto.
    destruct (S (index c) =? length (singleAcks c))%nat;
      destruct Hcase as (_ & _ & -> & _); [|reflexivity].
    now rewrite cumulativeAcks_app, cumulativeAcks_map, app_nil_r.
  - rewrite serve_AddCumulative in Hs. inversion Hs; subst c'.
    pose proof (sorted_tryUpdateLastCumulativeAck c id Hsorted) as Hup.
    destruct (MaxTime options <=? 0); [|exact Hup].
    apply (sorted_send (tryUpdateLastCumulativeAck c id)); auto.
    + rewrite flushCumulativeAck_acked, cumulativeAcks_app.
      now destruct (cumulativeAckRequired _).
    + apply flushCumulativeAck_fields.
    + apply flushCumulativeAck_required.
  - cbn [serve] in Hs. inversion Hs; subst c'. exact Hsorted.
  - destruct (serve_flushes_inv _ _ _ _ _ _ Hfl Hs) as (c1 & Hf & -> & _).
    destruct (decide (r = FlushAndClean)); [contradiction|].
    destruct (flush_detail c ids ltac:(lia) Hb)
      as (c1' & Hf' & _ & _ & _ & Hlast & Hreq & Hlog).
    rewrite Hf' in Hf. inversion Hf; subst c1'.
    apply (sorted_send c); auto.
    rewrite Hlog, !cumulativeAcks_app, cumulativeAcks_map. simpl.
    now destruct (cumulativeAckRequired c).
Qed.

(** X11. The grouped tracker sends cumulative acks that only move forward.
    When [messageIDCompare] is the comparison of a total preorder and no
    [flushAndClean] is requested, every id passed to the cumulative-ack
    callback is strictly greater than all the ids passed to it before,
    and none is above the watermark. *)
Theorem cumulative_acks_increase : forall options rs options' c b,
  (forall r, In r rs -> r <> FlushAndClean) ->
  run (newAckGroupingTracker options) rs =
    Ok (timedAckGroupingTracker options' c b) ->
  ForallOrdPairs (fun x y => messageIDCompare x y < 0)
    (cumulativeAcks (acked c)) /\
  (forall x, In x (cumulativeAcks (acked c)) ->
     0 <= messageIDCompare (lastCumulativeAck c) x).
Proof.
  intros options rs options' c b Hrs Hrun.
  unfold newAckGroupingTracker in Hrun.
  set (o := default defaultOptions options) in *.
  destruct (Z.leb_spec (MaxSize o) 1) as [Hle|Hgt].
  - pose proof (run_immediate_served rs _ _ Hrun) as Htick.
    rewrite run_immediate in Hrun by exact Htick. discriminate.
  - destruct (newAckGroupingTracker_timed o Hgt) as (_ & Hwf & Hlen).
    assert (Hinit : cumulative_sorted (newCachedAcks o)).
    { split; [intros x []|]. split; [discriminate|constructor]. }
    destruct (run_timed_history (fun _ => cumulative_sorted)
                (fun r => r <> FlushAndClean) o
                (serve_sorted o) rs [] (newCachedAcks o) true _
                Hwf Hlen Hrs Hinit Hrun)
      as (c' & b' & Heq & _ & (Hle & _ & Hsorted)).
    inversion Heq; subst. now split.
Qed.

End Sorted.

(** *** When a cumulative ack is sent *)

Lemma serve_nothing_due options (h : list request) c r c' b reply :
  MaxTime options <= 0 ->
  wf c -> length (singleAcks c) = Z.to_nat (MaxSize options) ->
  True -> cumulativeAckRequired c = false ->
  serve (timedAckGroupingTracker options c true) r =
    Ok (timedAckGroupingTracker options c' b, reply) ->
  cumulativeAckRequired c' = false.
Proof.
  intros Htime [Hi [ids Hb]] Hlen _ Hreq Hs.
  destruct (request_kinds r) as [[id ->]|[[id ->]|[[id ->]|Hfl]]].
  - destruct (serve_Add_detail options c id ids Hi Hb)
      as (c1 & Hs1 & _ & Hreq1 & _).
    rewrite Hs1 in Hs. inversion Hs; subst c1. congruence.
  - rewrite serve_AddCumulative in Hs. inversion Hs; subst c'.
    destruct (Z.leb_spec (MaxTime options) 0); [|lia].
    apply flushCumulativeAck_required.
  - cbn [serve] in Hs. inversion Hs; subst c'. exact Hreq.
  - destruct (serve_flushes_inv _ _ _ _ _ _ Hfl Hs) as (c1 & Hf & -> & _).
    destruct (flush_detail c ids ltac:(lia) Hb)
      as (c1' & Hf' & _ & _ & _ & _ & Hreq1 & _).
    rewrite Hf' in Hf. inversion Hf; subst c1'.
    now destruct (decide (r = FlushAndClean)).
Qed.

(** X12. Without a flush timer ([MaxTime <= 0]) cumulative acks are not held
    back.  In every state a new grouped tracker can reach,
    [addCumulative(id)] calls the cumulative-ack callback at once, with
    [id], when [id] is strictly above the watermark, and calls nothing
    otherwise. *)
Theorem cumulative_ack_is_immediate_without_timer : forall options rs c id,
  MaxTime options <= 0 ->
  run (newAckGroupingTracker (Some options)) rs =
    Ok (timedAckGroupingTracker options c true) ->
  exists c',
    serve (timedAckGroupingTracker options c true) (AddCumulative id) =
      Ok (timedAckGroupingTracker options c' true, None) /\
    cumulativeAckRequired c' = false /\
    if messageIDCompare (lastCumulativeAck c) id <? 0
    then acked c' = acked c ++ [CumulativeAck id] /\ lastCumulativeAck c' = id
    else acked c' = acked c /\ lastCumulativeAck c' = lastCumulativeAck c.
Proof.
  intros options rs c id Htime Hrun.
  assert (Hreq : cumulativeAckRequired c = false).
  { unfold newAckGroupingTracker in Hrun. simpl in Hrun.
    destruct (Z.leb_spec (MaxSize options) 1) as [Hle|Hgt].
    - pose proof (run_immediate_served rs _ _ Hrun) as Htick.
      rewrite run_immediate in Hrun by exact Htick. discriminate.
    - destruct (newAckGroupingTracker_timed options Hgt) as (_ & Hwf & Hlen).
      destruct (run_timed_history (fun _ c => cumulativeAckRequired c = false)
                  (fun _ => True) options
                  (fun h c0 r c1 b1 reply =>
                     serve_nothing_due options h c0 r c1 b1 reply Htime)
                  rs [] (newCachedAcks options) true _
                  Hwf Hlen (fun _ _ => I) eq_refl Hrun)
        as (c' & b' & Heq & _ & Hreq).
      inversion Heq; subst. exact Hreq. }
  eexists. rewrite serve_AddCumulative.
  destruct (Z.leb_spec (MaxTime options) 0); [|lia].
  split; [reflexivity|]. split; [apply flushCumulativeAck_required|].
  unfold tryUpdateLastCumulativeAck.
  destruct (messageIDCompare (lastCumulativeAck c) id <? 0).
  - unfold flushCumulativeAck; simpl. now split.
  - unfold flushCumulativeAck. rewrite Hreq. now split.
Qed.

(** *** Between two flushes *)

Lemma not_flushes_kinds r :
  ~ flushes r ->
  (exists id, r = Add id) \/ (exists id, r = AddCumulative id) \/
  (exists id, r = IsDuplicate id).
Proof. destruct (request_kinds r) as [?|[?|[?|?]]]; tauto. Qed.

(** Requests that do not flush are all served, and leave the loop
    running. *)
Lemma run_segment options seg : forall c,
  wf c -> length (singleAcks c) = Z.to_nat (MaxSize options) ->
  (forall q, In q seg -> ~ flushes q) ->
  exists c1,
    run (timedAckGroupingTracker options c true) seg =
      Ok (timedAckGroupingTracker options c1 true) /\
    wf c1 /\ length (singleAcks c1) = Z.to_nat (MaxSize options).
Proof.
  induction seg as [|q seg IH]; intros c Hwf Hlen Hseg.
  - exists c. split; [reflexivity|]. split; assumption.
  - assert (Hq : ~ flushes q) by (apply Hseg; now left).
    destruct (serve_timed options c q Hwf Hlen)
      as (c' & reply & Hs & Hwf' & Hlen' & _).
    { intros ->. exfalso. apply Hq. unfold flushes. tauto. }
    destruct (decide (q = Close)) as [->|_].
    { exfalso. apply Hq. unfold flushes. tauto. }
    destruct (IH c' Hwf' Hlen' ltac:(intros q' Hq'; apply Hseg; now right))
      as (c1 & Hrun & Hwf1 & Hlen1).
    exists c1. cbn [run]. rewrite Hs. simpl. auto.
Qed.

Lemma moved_snoc h : forall w r,
  moved w (h ++ [r]) =
  moved w h ||
  match r with
  | AddCumulative m => messageIDCompare (fold_left watermark_after h w) m <? 0
  | _ => false
  end.
Proof.
  induction h as [|q h IH]; intros w r; cbn [app moved fold_left].
  - now rewrite orb_false_r.
  - rewrite IH. now rewrite orb_assoc.
Qed.

(** While nothing flushes and the timer is used, no cumulative ack is
    sent; the watermark and the flag follow the requests. *)
Lemma serve_holds_cumulative options c0 h c r c' b reply :
  0 < MaxTime options ->
  wf c -> length (singleAcks c) = Z.to_nat (MaxSize options) ->
  ~ flushes r ->
  cumulativeAcks (acked c) = cumulativeAcks (acked c0) /\
  lastCumulativeAck c =
    fold_left watermark_after h (lastCumulativeAck c0) /\
  cumulativeAckRequired c =
    cumulativeAckRequired c0 || moved (lastCumulativeAck c0) h ->
  serve (timedAckGroupingTracker options c true) r =
    Ok (timedAckGroupingTracker options c' b, reply) ->
  cumulativeAcks (acked c') = cumulativeAcks (acked c0) /\
  lastCumulativeAck c' =
    fold_left watermark_after (h ++ [r]) (lastCumulativeAck c0) /\
  cumulativeAckRequired c' =
    cumulativeAckRequired c0 || moved (lastCumulativeAck c0) (h ++ [r]).
Proof.
  intros Htime [Hi [ids Hb]] Hlen Hr (Hlog & Hlast & Hreq) Hs.
  rewrite fold_left_app, moved_snoc, <- Hlast. cbn [fold_left].
  destruct (not_flushes_kinds r Hr) as [[id ->]|[[id ->]|[id ->]]].
  - destruct (serve_Add_detail options c id ids Hi Hb)
      as (c1 & Hs1 & Hlast1 & Hreq1 & Hcase).
    rewrite Hs1 in Hs. inversion Hs; subst c1. simpl.
    rewrite orb_false_r, Hlast1, Hreq1. split; [|split; [reflexivity|exact Hreq]].
    rewrite <- Hlog.
    destruct (S (index c) =? length (singleAcks c))%nat;
      destruct Hcase as (_ & _ & -> & _); [|reflexivity].
    now rewrite cumulativeAcks_app, cumulativeAcks_map, app_nil_r.
  - rewrite serve_AddCumulative in Hs. inversion Hs; subst c'.
    destruct (Z.leb_spec (MaxTime options) 0); [lia|].
    rewrite tryUpdateLastCumulativeAck_acked.
    split; [exact Hlog|]. unfold tryUpdateLastCumulativeAck. simpl.
    destruct (messageIDCompare (lastCumulativeAck c) id <? 0); simpl.
    + split; [reflexivity|]. now rewrite !orb_true_r.
    + split; [reflexivity|]. now rewrite orb_false_r.
  - cbn [serve] in Hs. inversion Hs; subst c'. simpl.
    rewrite orb_false_r. auto.
Qed.

(** X13. With a flush timer ([MaxTime > 0]) cumulative acks are coalesced
    between two flushes.  Take requests that do not flush ([add],
    [addCumulative] and [isDuplicate] calls, in any number and order, with
    no tick of the timer among them) and then one request that flushes (a
    [flush], [flushAndClean] or [close] call, or a tick).  While the first
    ones are served the cumulative-ack callback is not called; the flush
    calls it once, with the watermark they have led to, when a cumulative
    ack was due before or one of them moved the watermark, and does not
    call it otherwise. *)
Theorem cumulative_acks_are_coalesced : forall options c seg r,
  0 < MaxTime options ->
  wf c -> length (singleAcks c) = Z.to_nat (MaxSize options) ->
  (forall q, In q seg -> ~ flushes q) ->
  flushes r ->
  exists c1 c2 b,
    run (timedAckGroupingTracker options c true) seg =
      Ok (timedAckGroupingTracker options c1 true) /\
    cumulativeAcks (acked c1) = cumulativeAcks (acked c) /\
    run (timedAckGroupingTracker options c1 true) [r] =
      Ok (timedAckGroupingTracker options c2 b) /\
    cumulativeAcks (acked c2) =
      cumulativeAcks (acked c) ++
      (if cumulativeAckRequired c || moved (lastCumulativeAck c) seg
       then [fold_left watermark_after seg (lastCumulativeAck c)]
       else []).
Proof.
  intros options c seg r Htime Hwf Hlen Hseg Hr.
  destruct (run_segment options seg c Hwf Hlen Hseg)
    as (c1 & Hrun1 & Hwf1 & Hlen1).
  destruct (run_timed_history
              (fun h c' =>
                 cumulativeAcks (acked c') = cumulativeAcks (acked c) /\
                 lastCumulativeAck c' =
                   fold_left watermark_after h (lastCumulativeAck c) /\
                 cumulativeAckRequired c' =
                   cumulativeAckRequired c || moved (lastCumulativeAck c) h)
              (fun q => ~ flushes q) options
              (fun h c0 q c' b reply Hw Hl =>
                 serve_holds_cumulative options c h c0 q c' b reply
                   Htime Hw Hl)
              seg [] c true _ Hwf Hlen Hseg
              ltac:(simpl; rewrite orb_false_r; auto) Hrun1)
    as (c1' & b1 & Heq & _ & Hlog1 & Hlast1 & Hreq1).
  inversion Heq; subst c1' b1. simpl in Hlast1, Hreq1.
  destruct Hwf1 as [Hi1 [ids Hb1]].
  destruct (serve_timed options c1 r (conj Hi1 (ex_intro _ ids Hb1)) Hlen1
              ltac:(intros _; exact Htime))
    as (c2 & reply & Hs & _).
  destruct (serve_flushes_inv _ _ _ _ _ _ Hr Hs) as (cf & Hf & Hc2 & _).
  destruct (flush_detail c1 ids ltac:(lia) Hb1)
    as (cf' & Hf' & _ & _ & _ & _ & _ & Hlogf).
  rewrite Hf' in Hf. inversion Hf; subst cf'.
  exists c1, c2, (if decide (r = Close) then false else true).
  split; [exact Hrun1|]. split; [exact Hlog1|].
  cbn [run]. rewrite Hs. simpl. split; [reflexivity|].
  assert (Hacked : acked c2 = acked cf)
    by (rewrite Hc2; now destruct (decide (r = FlushAndClean))).
  rewrite Hacked, Hlogf, !cumulativeAcks_app, cumulativeAcks_map, Hlog1.
  rewrite Hreq1, Hlast1. simpl.
  now destruct (cumulativeAckRequired c || moved (lastCumulativeAck c) seg).
Qed.

(** *** Filling the buffer, with other requests in between *)

Lemma serve_fills options c0 h c r c' b reply :
  wf c -> length (singleAcks c) = Z.to_nat (MaxSize options) ->
  ~ flushes r ->
  (if (length (added h) <? Z.to_nat (MaxSize options))%nat then
     buffered c = Some (added h) /\
     index c = length (added h) /\
     individualAcks (acked c) = individualAcks (acked c0)
   else
     length (added h) = Z.to_nat (MaxSize options) ->
     index c = 0%nat /\
     individualAcks (acked c) = individualAcks (acked c0) ++ added h /\
     forall id, In id (added h) ->
                pendingAcks c !! messageIDHash id = None) ->
  serve (timedAckGroupingTracker options c true) r =
    Ok (timedAckGroupingTracker options c' b, reply) ->
  (if (length (added (h ++ [r])) <? Z.to_nat (MaxSize options))%nat then
     buffered c' = Some (added (h ++ [r])) /\
     index c' = length (added (h ++ [r])) /\
     individualAcks (acked c') = individualAcks (acked c0)
   else
     length (added (h ++ [r])) = Z.to_nat (MaxSize options) ->
     index c' = 0%nat /\
     individualAcks (acked c') =
       individualAcks (acked c0) ++ added (h ++ [r]) /\
     forall id, In id (added (h ++ [r])) ->
                pendingAcks c' !! messageIDHash id = None).
Proof.
  intros [Hi [ids Hb]] Hlen Hr HQ Hs. rewrite added_app.
  set (N := Z.to_nat (MaxSize options)) in *.
  assert (Hsame : forall c1,
            index c1 = index c -> singleAcks c1 = singleAcks c ->
            pendingAcks c1 = pendingAcks c ->
            individualAcks (acked c1) = individualAcks (acked c) ->
            if (length (added h) <? N)%nat then
              buffered c1 = Some (added h) /\
              index c1 = length (added h) /\
              individualAcks (acked c1) = individualAcks (acked c0)
            else
              length (added h) = N ->
              index c1 = 0%nat /\
              individualAcks (acked c1) = individualAcks (acked c0) ++ added h /\
              forall id, In id (added h) ->
                         pendingAcks c1 !! messageIDHash id = None).
  { intros c1 F1 F2 F3 F4.
    rewrite (buffered_fields c c1 F1 F2), F1, F3, F4. exact HQ. }
  destruct (not_flushes_kinds r Hr) as [[id ->]|[[id ->]|[id ->]]].
  - change (added [Add id]) with [id]. rewrite length_app. simpl.
    destruct (Nat.ltb_spec (length (added h)) N) as [Hlt|Hge].
    + destruct HQ as (Hbuf & Hidx & Hlog).
      destruct (serve_Add_detail options c id (added h) Hi Hbuf)
        as (c1 & Hs1 & _ & _ & Hcase).
      rewrite Hs1 in Hs. inversion Hs; subst c1.
      rewrite Hidx, Hlen in Hcase.
      destruct (Nat.eqb_spec (S (length (added h))) N) as [Hfull|Hroom];
        destruct Hcase as (Hidx' & Hbuf' & Hlog' & Hp').
      * destruct (Nat.ltb_spec (length (added h) + 1) N); [lia|].
        intros _. split; [exact Hidx'|]. split.
        { now rewrite Hlog', individualAcks_app, individualAcks_map, Hlog. }
        intros id' Hin. rewrite Hp'. now apply foldl_flushEntry_In.
      * destruct (Nat.ltb_spec (length (added h) + 1) N); [|lia].
        split; [exact Hbuf'|]. split; [lia|]. now rewrite Hlog'.
    + destruct (Nat.ltb_spec (length (added h) + 1) N); [lia|]. lia.
  - rewrite serve_AddCumulative in Hs. inversion Hs; subst c'.
    change (added [AddCumulative id]) with (@nil MessageID).
    rewrite app_nil_r.
    destruct (tryUpdateLastCumulativeAck_fields c id) as (E1 & E2 & E3 & _).
    pose proof (tryUpdateLastCumulativeAck_acked c id) as E4.
    destruct (MaxTime options <=? 0).
    + destruct (flushCumulativeAck_fields (tryUpdateLastCumulativeAck c id))
        as (F1 & F2 & F3 & _).
      apply Hsame; try congruence.
      rewrite flushCumulativeAck_acked, individualAcks_app, E4.
      destruct (cumulativeAckRequired _); simpl; now rewrite app_nil_r.
    + apply Hsame; congruence.
  - cbn [serve] in Hs. inversion Hs; subst c'.
    change (added [IsDuplicate id]) with (@nil MessageID).
    rewrite app_nil_r. exact HQ.
Qed.

(** C4, as amended.  Take a running grouped tracker with [MaxSize = N > 1]
    whose buffer is empty, and a sequence of requests with exactly [N]
    calls of [add], for distinct ids (batched or not), in which nothing
    flushes before the last of them: no tick of the flush timer and no
    [flush], [flushAndClean] or [close] call ([addCumulative] and
    [isDuplicate] calls may come in between).  The sequence is served;
    the individual-ack callback is called once for each of the [N] ids,
    in the order of the calls of [add]; afterwards the cursor of the
    buffer is 0 and the pending-ack index has no entry for any of the
    ids. *)
Theorem add_MaxSize_times_flushes : forall options c rs,
  1 < MaxSize options ->
  length (singleAcks c) = Z.to_nat (MaxSize options) ->
  index c = 0%nat ->
  (forall r, In r rs -> ~ flushes r) ->
  length (added rs) = Z.to_nat (MaxSize options) ->
  NoDup (added rs) ->
  exists c',
    run (timedAckGroupingTracker options c true) rs =
      Ok (timedAckGroupingTracker options c' true) /\
    individualAcks (acked c') = individualAcks (acked c) ++ added rs /\
    (forall id, In id (added rs) ->
       count_occ MessageID_eq_dec (added rs) id = 1%nat) /\
    index c' = 0%nat /\
    (forall id, In id (added rs) ->
       pendingAcks c' !! messageIDHash id = None).
Proof.
  intros options c rs Hsize Hlen Hidx Hrs Hn Hnd.
  assert (Hwf : wf c) by (apply wf_empty_buffer; [exact Hidx|lia]).
  destruct (run_segment options rs c Hwf Hlen Hrs) as (c' & Hrun & _ & _).
  assert (Hinit :
    if (length (added []) <? Z.to_nat (MaxSize options))%nat then
      buffered c = Some (added []) /\
      index c = length (added []) /\
      individualAcks (acked c) = individualAcks (acked c)
    else
      length (added []) = Z.to_nat (MaxSize options) ->
      index c = 0%nat /\
      individualAcks (acked c) = individualAcks (acked c) ++ added [] /\
      forall id, In id (added []) ->
                 pendingAcks c !! messageIDHash id = None).
  { simpl. destruct (Nat.ltb_spec 0 (Z.to_nat (MaxSize options))); [|lia].
    unfold buffered. rewrite Hidx. auto. }
  destruct (run_timed_history
              (fun h c1 =>
                 if (length (added h) <? Z.to_nat (MaxSize options))%nat then
                   buffered c1 = Some (added h) /\
                   index c1 = length (added h) /\
                   individualAcks (acked c1) = individualAcks (acked c)
                 else
                   length (added h) = Z.to_nat (MaxSize options) ->
                   index c1 = 0%nat /\
                   individualAcks (acked c1) =
                     individualAcks (acked c) ++ added h /\
                   forall id, In id (added h) ->
                              pendingAcks c1 !! messageIDHash id = None)
              (fun q => ~ flushes q) options
              (fun h c0 q c1 b reply => serve_fills options c h c0 q c1 b reply)
              rs [] c true _ Hwf Hlen Hrs Hinit Hrun)
    as (c1 & b1 & Heq & _ & HQ).
  inversion Heq; subst c1 b1. simpl in HQ. rewrite Hn in HQ.
  destruct (Nat.ltb_spec (Z.to_nat (MaxSize options))
              (Z.to_nat (MaxSize options))); [lia|].
  destruct (HQ eq_refl) as (Hidx' & Hlog & Hnone).
  exists c'. split; [exact Hrun|]. split; [exact Hlog|].
  split; [|split; [exact Hidx'|exact Hnone]].
  intros id Hin. apply NoDup_count_occ'; [|exact Hin].
  now apply NoDup_ListNoDup.
Qed.

(** *** Ids that share a position *)

Lemma markAcked_key pending id :
  is_Some (markAcked pending id !! messageIDHash id).
Proof.
  unfold markAcked.
  destruct (pending !! messageIDHash id) as [[b|]|] eqn:E;
    [| |destruct (messageIDIsBatch id)];
    rewrite ?lookup_insert_eq; rewrite ?E; eauto.
Qed.

(** X16. The pending-ack index tells ids apart by the hash of their position
    only.  Once [add(a)] is buffered, [isDuplicate(b)] is true for every
    non-batched id [b] whose hash is that of [a]: for [a] itself, and also
    for an id that was never acknowledged but collides with [a]. *)
Theorem isDuplicate_by_hash_only : forall options c a b,
  (S (index c) < length (singleAcks c))%nat ->
  is_Some (buffered c) ->
  messageIDHash b = messageIDHash a ->
  messageIDIsBatch b = false ->
  exists c1,
    serve (timedAckGroupingTracker options c true) (Add a) =
      Ok (timedAckGroupingTracker options c1 true, None) /\
    answer (timedAckGroupingTracker options c1 true) b = Some true.
Proof.
  intros options c a b Hroom [ids Hb] Hhash Hsingle.
  destruct (serve_Add_room options c a ids Hroom Hb)
    as (c1 & Hs & _ & _ & _ & Hp & _).
  exists c1. split; [exact Hs|].
  unfold answer; cbn [serve]. unfold isDuplicate.
  destruct (0 <=? _); [reflexivity|].
  rewrite Hp, Hhash.
  destruct (markAcked_key (pendingAcks c) a) as [x ->].
  destruct x; [|reflexivity]. now rewrite Hsingle.
Qed.

(** *** The bit set of a batch *)

Lemma uint_small z : 0 <= z < 2 ^ 64 -> BitSet.uint z = z.
Proof. intros Hz. unfold BitSet.uint. now apply Z.mod_small. Qed.

Lemma Set_in_range (b : BitSet.BitSet) i :
  (i < length b)%nat -> BitSet.Set_ b (Z.of_nat i) = <[i := true]> b.
Proof.
  intros Hi. unfold BitSet.Set_. rewrite Nat2Z.id.
  destruct (Nat.ltb_spec i (length b)); [reflexivity|lia].
Qed.

Lemma set_bits d : forall k (l : BitSet.BitSet),
  (k + d <= length l)%nat -> Z.of_nat (k + d) <= 2 ^ 64 ->
  foldl (fun ackSet i => BitSet.Set_ ackSet (BitSet.uint i)) l
    (seqZ (Z.of_nat k) (Z.of_nat d)) =
  take k l ++ replicate d true ++ drop (k + d) l.
Proof.
  induction d as [|d IH]; intros k l Hlen Hbound.
  - rewrite seqZ_nil by lia. simpl. rewrite Nat.add_0_r.
    now rewrite take_drop.
  - rewrite seqZ_cons by lia. cbn [foldl].
    rewrite uint_small by lia. rewrite Set_in_range by lia.
    replace (Z.succ (Z.of_nat k)) with (Z.of_nat (S k)) by lia.
    replace (Z.pred (Z.of_nat (S d))) with (Z.of_nat d) by lia.
    rewrite IH by (rewrite ?length_insert; lia).
    rewrite take_insert_snoc by lia.
    rewrite drop_insert_lt by lia.
    replace (S k + d)%nat with (k + S d)%nat by lia.
    now rewrite <- app_assoc.
Qed.

(** The bit set made for a batch seen for the first time has one bit per
    message of the batch, all set. *)
Lemma newAckSet_full n :
  0 <= n < 2 ^ 64 -> newAckSet n = replicate (Z.to_nat n) true.
Proof.
  intros Hn. unfold newAckSet. rewrite uint_small by exact Hn.
  unfold BitSet.New.
  pose proof (set_bits (Z.to_nat n) 0 (replicate (Z.to_nat n) false)) as Hset.
  rewrite length_replicate in Hset. simpl in Hset.
  change (Z.of_nat 0) with 0 in Hset.
  rewrite Z2Nat.id in Hset by lia.
  rewrite Hset by lia.
  rewrite drop_ge by (rewrite length_replicate; lia).
  now rewrite app_nil_r.
Qed.

(** X17. The first [add] for a batch, of any size, marks the index of its id
    and no other: at a position that has no entry in the pending-ack
    index and lies above the watermark, after [add(id)] has been buffered
    [isDuplicate] is true for [id] and false for every other index of the
    batch. *)
Theorem first_ack_of_batch_marks_one_index : forall options c id id',
  (S (index c) < length (singleAcks c))%nat ->
  is_Some (buffered c) ->
  pendingAcks c !! messageIDHash id = None ->
  messageIDIsBatch id = true ->
  messageIDIsBatch id' = true ->
  messageIDHash id' = messageIDHash id ->
  BatchSize id < 2 ^ 31 ->
  0 <= BatchIdx id < BatchSize id ->
  0 <= BatchIdx id' < BatchSize id ->
  messageIDCompare (lastCumulativeAck c) id' < 0 ->
  exists c1,
    serve (timedAckGroupingTracker options c true) (Add id) =
      Ok (timedAckGroupingTracker options c1 true, None) /\
    answer (timedAckGroupingTracker options c1 true) id' =
      Some (bool_decide (BatchIdx id' = BatchIdx id)).
Proof.
  intros options c id id' Hroom [ids Hb] Hnone Hbatch Hbatch' Hhash
         Hsize Hidx Hidx' Habove.
  destruct (serve_Add_room options c id ids Hroom Hb)
    as (c1 & Hs & _ & _ & _ & Hp & Hlast & _).
  exists c1. split; [exact Hs|].
  assert (Hentry : pendingAcks c1 !! messageIDHash id' =
            Some (Some (<[Z.to_nat (BatchIdx id) := false]>
                          (replicate (Z.to_nat (BatchSize id)) true)))).
  { rewrite Hp, Hhash, markAcked_first_of_batch by assumption.
    rewrite newAckSet_full by lia. rewrite uint_small by lia.
    unfold BitSet.Clear. rewrite length_replicate.
    destruct (Nat.ltb_spec (Z.to_nat (BatchIdx id)) (Z.to_nat (BatchSize id)));
      [reflexivity|lia]. }
  unfold answer; cbn [serve]. f_equal.
  rewrite (isDuplicate_bit c1 id' _ ltac:(now rewrite Hlast) Hbatch' Hentry).
  rewrite uint_small by lia. unfold BitSet.Test.
  destruct (decide (BatchIdx id' = BatchIdx id)) as [Heq|Hne].
  - rewrite Heq, list_lookup_insert_eq by (rewrite length_replicate; lia).
    now rewrite bool_decide_eq_true_2.
  - rewrite list_lookup_insert_ne by lia.
    rewrite lookup_replicate_2 by lia.
    now rewrite bool_decide_eq_false_2.
Qed.

End WithMessageIDFuncs.

End TrackerMore.

(** ** More of the tracker on the message ids of [SpecMessageID] *)

Module TrackerMoreExamples.
Import Tracker TrackerViews TrackerProofs TrackerMore Samples MoreSamples.

Lemma flush_twice_is_flush_once_witness :
  exists t1,
    run loaded [Flush] = Ok t1 /\
    calls t1 = [IndividualAck (single 7); CumulativeAck (single 3)] /\
    run t1 [Flush] = Ok t1.
Proof.
  eexists. split; [vm_compute; reflexivity|]. split; [reflexivity|].
  refine (flush_twice_is_flush_once (H := SpecMessageID.funcs) loaded _ _).
  vm_compute. reflexivity.
Defined.

Lemma individual_acks_are_conserved_witness :
  exists t,
    run (newAckGroupingTracker (Some options3))
        [Add (single 7); Add (batched 0); AddCumulative (single 1);
         Add (single 8); Add (single 9)] = Ok t /\
    individualAcks (calls t) = [single 7; batched 0; single 8] /\
    waiting t = [single 9] /\
    individualAcks (calls t) ++ waiting t =
      added [Add (single 7); Add (batched 0); AddCumulative (single 1);
             Add (single 8); Add (single 9)].
Proof.
  eexists. split; [vm_compute; reflexivity|].
  split; [reflexivity|]. split; [reflexivity|].
  refine (individual_acks_are_conserved (H := SpecMessageID.funcs)
            (Some options3)
            [Add (single 7); Add (batched 0); AddCumulative (single 1);
             Add (single 8); Add (single 9)] _ _).
  vm_compute. reflexivity.
Defined.

Lemma close_delivers_and_ends_witness :
  exists t,
    run (newAckGroupingTracker (Some options3))
        ([Add (single 7); AddCumulative (single 1); Add (single 8)] ++ [Close])
      = Ok t /\
    individualAcks (calls t) =
      added [Add (single 7); AddCumulative (single 1); Add (single 8)] /\
    waiting t = [] /\
    (exists c, t = timedAckGroupingTracker options3 c false /\
               index c = 0%nat /\ cumulativeAckRequired c = false) /\
    (forall r, serve t r = Stuck).
Proof.
  eexists. split; [vm_compute; reflexivity|].
  refine (close_delivers_and_ends (H := SpecMessageID.funcs) options3
            [Add (single 7); AddCumulative (single 1); Add (single 8)] _ _ _).
  - reflexivity.
  - vm_compute. reflexivity.
Defined.

Lemma index_follows_buffer_witness :
  exists c,
    run (newAckGroupingTracker (Some options3))
        [Add (batched 0); Add (single 8); Flush] =
      Ok (timedAckGroupingTracker options3 c true) /\
    index_covered c /\
    (index c = 0%nat ->
     pendingAcks c = ∅ /\
     forall id, isDuplicate c id =
                (0 <=? messageIDCompare (lastCumulativeAck c) id)).
Proof.
  eexists. split; [vm_compute; reflexivity|].
  refine (index_follows_buffer (H := SpecMessageID.funcs) (Some options3)
            [Add (batched 0); Add (single 8); Flush] options3 _ true _).
  vm_compute. reflexivity.
Defined.

Lemma cumulative_acks_increase_witness :
  exists c,
    run (newAckGroupingTracker (Some options3))
        [AddCumulative (single 5); AddCumulative (single 3);
         AddCumulative (single 9); Flush] =
      Ok (timedAckGroupingTracker options3 c true) /\
    cumulativeAcks (acked c) = [single 5; single 9] /\
    ForallOrdPairs (fun x y => messageIDCompare x y < 0)
      (cumulativeAcks (acked c)) /\
    (forall x, In x (cumulativeAcks (acked c)) ->
       0 <= messageIDCompare (lastCumulativeAck c) x).
Proof.
  eexists. split; [vm_compute; reflexivity|]. split; [reflexivity|].
  refine (cumulative_acks_increase (H := SpecMessageID.funcs)
            TrackerExamples.spec_compare_swap TrackerExamples.spec_compare_trans
            (Some options3)
            [AddCumulative (single 5); AddCumulative (single 3);
             AddCumulative (single 9); Flush] options3 _ true _ _).
  - intros r Hr. simpl in Hr. intuition (subst; discriminate).
  - vm_compute. reflexivity.
Defined.

Lemma cumulative_ack_is_immediate_without_timer_witness :
  exists c c',
    run (newAckGroupingTracker (Some options3))
        [Add (single 7); AddCumulative (single 3)] =
      Ok (timedAckGroupingTracker options3 c true) /\
    serve (timedAckGroupingTracker options3 c true) (AddCumulative (single 5)) =
      Ok (timedAckGroupingTracker options3 c' true, None) /\
    acked c' = [CumulativeAck (single 3); CumulativeAck (single 5)].
Proof.
  eexists.
  destruct (cumulative_ack_is_immediate_without_timer
              (H := SpecMessageID.funcs) options3
              [Add (single 7); AddCumulative (single 3)] _ (single 5)
              ltac:(simpl; lia) ltac:(vm_compute; reflexivity))
    as (c' & Hs & _ & Hcase).
  exists c'. split; [reflexivity|]. split; [exact Hs|].
  exact (proj1 Hcase).
Defined.

Lemma cumulative_acks_are_coalesced_witness :
  run (newAckGroupingTracker (Some timed3))
      [Add (single 4); Add (single 5); AddCumulative (single 3); Tick] =
    Ok (timedAckGroupingTracker timed3 flushed true) /\
  exists c1 c2 b,
    run (timedAckGroupingTracker timed3 flushed true)
        [AddCumulative (single 9); Add (single 7);
         AddCumulative (single 5); IsDuplicate (single 6)] =
      Ok (timedAckGroupingTracker timed3 c1 true) /\
    cumulativeAcks (acked c1) = [single 3] /\
    run (timedAckGroupingTracker timed3 c1 true) [Tick] =
      Ok (timedAckGroupingTracker timed3 c2 b) /\
    cumulativeAcks (acked c2) = [single 3; single 9].
Proof.
  split; [vm_compute; reflexivity|].
  refine (cumulative_acks_are_coalesced (H := SpecMessageID.funcs) timed3
            flushed
            [AddCumulative (single 9); Add (single 7);
             AddCumulative (single 5); IsDuplicate (single 6)]
            Tick _ _ _ _ _).
  - simpl. lia.
  - split; [simpl; lia|]. eexists. reflexivity.
  - reflexivity.
  - intros q Hq [-> | [-> | [-> | ->]]]; simpl in Hq;
      intuition discriminate.
  - unfold flushes. tauto.
Defined.

Lemma add_MaxSize_times_flushes_witness :
  run (newAckGroupingTracker (Some timed3))
      [Add (single 4); Add (single 5); AddCumulative (single 3); Tick] =
    Ok (timedAckGroupingTracker timed3 flushed true) /\
  exists c',
    run (timedAckGroupingTracker timed3 flushed true)
        [Add (single 7); IsDuplicate (single 7); Add (batched 0);
         AddCumulative (single 1); Add (single 9)] =
      Ok (timedAckGroupingTracker timed3 c' true) /\
    individualAcks (acked c') =
      [single 4; single 5] ++ [single 7; batched 0; single 9] /\
    (forall id, In id [single 7; batched 0; single 9] ->
       count_occ MessageID_eq_dec [single 7; batched 0; single 9] id =
         1%nat) /\
    index c' = 0%nat /\
    (forall id, In id [single 7; batched 0; single 9] ->
       pendingAcks c' !! messageIDHash id = None).
Proof.
  split; [vm_compute; reflexivity|].
  refine (add_MaxSize_times_flushes (H := SpecMessageID.funcs) timed3
            flushed
            [Add (single 7); IsDuplicate (single 7); Add (batched 0);
             AddCumulative (single 1); Add (single 9)] _ _ _ _ _ _).
  - simpl. lia.
  - reflexivity.
  - reflexivity.
  - intros q Hq [-> | [-> | [-> | ->]]]; simpl in Hq;
      intuition discriminate.
  - reflexivity.
  - apply NoDup_ListNoDup. repeat constructor; simpl; intuition discriminate.
Defined.

(** C4 as stated fails when the flush timer is used: a tick between the
    second and the third of three calls of [add] sends the first two ids
    and empties the buffer, so that the third call does not flush.  Its id
    has not reached the callback, the cursor is 1 and the pending-ack
    index still has the entry of the third id. *)
Lemma add_MaxSize_times_flushes_counterexample :
  MaxSize timed3 = 3 /\
  added [Add (single 7); Add (single 8); Tick; Add (single 9)] =
    [single 7; single 8; single 9] /\
  exists c,
    run (newAckGroupingTracker (Some timed3))
        [Add (single 7); Add (single 8); Tick; Add (single 9)] =
      Ok (timedAckGroupingTracker timed3 c true) /\
    acked c = [IndividualAck (single 7); IndividualAck (single 8)] /\
    index c = 1%nat /\
    pendingAcks c !! messageIDHash (single 9) = Some None /\
    pendingAcks c !! messageIDHash (single 9) <> None.
Proof.
  split; [reflexivity|]. split; [reflexivity|].
  eexists. split; [vm_compute; reflexivity|].
  split; [reflexivity|]. split; [reflexivity|].
  split; [reflexivity|]. discriminate.
Qed.

Lemma isDuplicate_by_hash_only_witness :
  messageIDCompare SpecMessageID.earliest colliding2 < 0 /\
  answer (newAckGroupingTracker (Some options3)) colliding2 = Some false /\
  exists c1,
    serve (newAckGroupingTracker (Some options3)) (Add colliding1) =
      Ok (timedAckGroupingTracker options3 c1 true, None) /\
    answer (timedAckGroupingTracker options3 c1 true) colliding2 = Some true.
Proof.
  split; [reflexivity|]. split; [reflexivity|].
  refine (isDuplicate_by_hash_only (H := SpecMessageID.funcs) options3
            (newCachedAcks options3) colliding1 colliding2 _ _ _ _).
  - simpl. lia.
  - eexists. reflexivity.
  - reflexivity.
  - reflexivity.
Defined.

Lemma first_ack_of_batch_marks_one_index_witness :
  exists c1,
    serve (newAckGroupingTracker (Some options10)) (Add (batched 1)) =
      Ok (timedAckGroupingTracker options10 c1 true, None) /\
    answer (timedAckGroupingTracker options10 c1 true) (batched 2) =
      Some (bool_decide (BatchIdx (batched 2) = BatchIdx (batched 1))).
Proof.
  refine (first_ack_of_batch_marks_one_index (H := SpecMessageID.funcs)
            options10 (newCachedAcks options10) (batched 1) (batched 2)
            _ _ _ _ _ _ _ _ _ _).
  - simpl. lia.
  - eexists. reflexivity.
  - reflexivity.
  - reflexivity.
  - reflexivity.
  - reflexivity.
  - reflexivity.
  - simpl. lia.
  - simpl. lia.
  - reflexivity.
Defined.

End TrackerMoreExamples.
